(** * The buffer pool of src/storage/buffer/buffer_pool.cpp

    A shallow embedding of [BufferPool] and [BufferEvictionNode]: the
    eviction queue, the memory counters, the purge protocol and
    [SetLimit], followed by the properties of the specification that
    can be settled on it.

    The embedding is sequential: one thread runs one pool operation at
    a time.  The lock-free queue is a FIFO list, [size_approx] is its
    length, [try_dequeue] fails exactly on the empty queue, and a
    compare-exchange never fails spuriously. *)

From Stdlib Require Import ZArith String Lia.
From stdpp Require Import base list.

Local Open Scope Z_scope.

(** ** Machine integers *)

(** [idx_t] is [uint64_t]; arithmetic on it wraps modulo [2^64]. *)
Definition idx_modulus : Z := 2 ^ 64.

Definition wrap (x : Z) : Z := x mod idx_modulus.

(** ** Constants of buffer_pool.hpp *)

(** Modelled from the spec: the four tuning constants are declared in
    buffer_pool.hpp, which is not among the sources; section 4.6 of the
    specification gives their defaults. *)
Definition INSERT_INTERVAL : Z := 1024.
Definition PURGE_SIZE_MULTIPLIER : Z := 2.
Definition EARLY_OUT_MULTIPLIER : Z := 4.
Definition ALIVE_NODE_MULTIPLIER : Z := 4.

(** Modelled from the spec: [MemoryTag] is a fixed enumeration declared
    outside the sources; a tag is the index of its slot, and [EXTENSION]
    is one of them. *)
Definition MemoryTag : Type := nat.
Definition MEMORY_TAG_COUNT : nat := 12.
Definition EXTENSION : MemoryTag := 11%nat.

(** ** Block handles (external contract) *)

Inductive BlockState : Type :=
| BLOCK_UNLOADED
| BLOCK_LOADED.

(** The attributes of a block handle the pool reads: section 3 of the
    specification.  [alloc_size] is both [buffer->AllocSize()] and the
    memory charged for the block; [can_offload] stands for the
    conditions of [BlockHandle::CanUnload] that do not concern the pool
    (a temporary block needs somewhere to be written to). *)
Record BlockHandle : Type := mkBlockHandle {
  state : BlockState;
  readers : Z;
  tag : MemoryTag;
  alloc_size : Z;
  eviction_timestamp : Z;
  can_offload : bool
}.

(** Modelled from the spec: [BlockHandle::CanUnload] is defined in
    block_handle.cpp, not among the sources.  "A handle may be unloaded
    only when readers == 0 and state == Loaded." *)
Definition BlockHandle_CanUnload (h : BlockHandle) : bool :=
  match state h with
  | BLOCK_UNLOADED => false
  | BLOCK_LOADED => if 0 <? readers h then false else can_offload h
  end.

(** The heap of block handles.  A handle is named by its index; a
    destroyed handle leaves [None] behind and its index is never used
    again, so a weak reference to it can never be upgraded. *)
Abbreviation Heap := (list (option BlockHandle)).

(** [weak_ptr<BlockHandle>]: empty, or the name of a handle. *)
Definition weak_ptr : Type := option nat.

(** [weak_ptr::lock]: the handle, when it is still alive. *)
Definition weak_lock (hp : Heap) (wp : weak_ptr) : option (nat * BlockHandle) :=
  match wp with
  | None => None
  | Some id =>
      match hp !! id with
      | Some (Some h) => Some (id, h)
      | _ => None
      end
  end.

(** ** Eviction nodes *)

Record BufferEvictionNode : Type := mkNode {
  handle : weak_ptr;
  timestamp : Z
}.

(** The default-constructed node: an empty weak pointer. *)
Definition default_node : BufferEvictionNode := mkNode None 0.

#[global] Instance BufferEvictionNode_eq_dec : EqDecision BufferEvictionNode.
Proof. solve_decision. Defined.

(** [BufferEvictionNode::CanUnload] *)
Definition CanUnload (node : BufferEvictionNode) (handle_p : BlockHandle) : bool :=
  if negb (timestamp node =? eviction_timestamp handle_p) then
    (* handle was used in between *)
    false
  else BlockHandle_CanUnload handle_p.

(** [BufferEvictionNode::TryGetBlockHandle] *)
Definition TryGetBlockHandle (hp : Heap) (node : BufferEvictionNode)
  : option (nat * BlockHandle) :=
  match weak_lock hp (handle node) with
  | None => None (* BlockHandle has been destroyed *)
  | Some (id, handle_p) =>
      if negb (CanUnload node handle_p) then None
      else Some (id, handle_p)
  end.

(** ** The pool *)

Record BufferPool : Type := mkBufferPool {
  current_memory : Z;
  maximum_memory : Z;
  memory_usage_per_tag : list Z;
  queue : list BufferEvictionNode;
  evict_queue_insertions : Z;
  total_dead_nodes : Z;
  purge_active : bool;
  purge_nodes : list BufferEvictionNode
}.

(** The state an operation runs in: the handles and the pool. *)
Record World : Type := mkWorld {
  handles : Heap;
  pool : BufferPool
}.

Definition set_current_memory (v : Z) (p : BufferPool) : BufferPool :=
  mkBufferPool v (maximum_memory p) (memory_usage_per_tag p) (queue p)
    (evict_queue_insertions p) (total_dead_nodes p) (purge_active p) (purge_nodes p).

Definition set_maximum_memory (v : Z) (p : BufferPool) : BufferPool :=
  mkBufferPool (current_memory p) v (memory_usage_per_tag p) (queue p)
    (evict_queue_insertions p) (total_dead_nodes p) (purge_active p) (purge_nodes p).

Definition set_memory_usage_per_tag (v : list Z) (p : BufferPool) : BufferPool :=
  mkBufferPool (current_memory p) (maximum_memory p) v (queue p)
    (evict_queue_insertions p) (total_dead_nodes p) (purge_active p) (purge_nodes p).

Definition set_queue (v : list BufferEvictionNode) (p : BufferPool) : BufferPool :=
  mkBufferPool (current_memory p) (maximum_memory p) (memory_usage_per_tag p) v
    (evict_queue_insertions p) (total_dead_nodes p) (purge_active p) (purge_nodes p).

Definition set_evict_queue_insertions (v : Z) (p : BufferPool) : BufferPool :=
  mkBufferPool (current_memory p) (maximum_memory p) (memory_usage_per_tag p) (queue p)
    v (total_dead_nodes p) (purge_active p) (purge_nodes p).

Definition set_total_dead_nodes (v : Z) (p : BufferPool) : BufferPool :=
  mkBufferPool (current_memory p) (maximum_memory p) (memory_usage_per_tag p) (queue p)
    (evict_queue_insertions p) v (purge_active p) (purge_nodes p).

Definition set_purge_active (v : bool) (p : BufferPool) : BufferPool :=
  mkBufferPool (current_memory p) (maximum_memory p) (memory_usage_per_tag p) (queue p)
    (evict_queue_insertions p) (total_dead_nodes p) v (purge_nodes p).

Definition set_purge_nodes (v : list BufferEvictionNode) (p : BufferPool) : BufferPool :=
  mkBufferPool (current_memory p) (maximum_memory p) (memory_usage_per_tag p) (queue p)
    (evict_queue_insertions p) (total_dead_nodes p) (purge_active p) v.

Definition on_pool (f : BufferPool -> BufferPool) (w : World) : World :=
  mkWorld (handles w) (f (pool w)).

Definition set_handles (hp : Heap) (w : World) : World :=
  mkWorld hp (pool w).

(** ** Outcomes *)

(** What a call can end in besides a normal return. *)
Inductive failure : Type :=
| OutOfMemoryException (format : string) (limit : Z) (postscript : string)
| DivisionByZero.

(** [Returns a w]: the call returns [a] in state [w].  [Throws e w]: it
    is left through [e], the state being [w] at that moment.
    [Diverges]: the loops of the call have not finished within the
    given number of iterations. *)
Inductive outcome (A : Type) : Type :=
| Returns (a : A) (w : World)
| Throws (e : failure) (w : World)
| Diverges.

Arguments Returns {A} a w.
Arguments Throws {A} e w.
Arguments Diverges {A}.

(** ** Construction and accessors *)

(** [BufferPool::BufferPool] *)
Definition BufferPool_new (maximum_memory : Z) : BufferPool :=
  mkBufferPool 0 maximum_memory (replicate MEMORY_TAG_COUNT 0) [] 0 0 false [].

(** [BufferPool::GetUsedMemory] *)
Definition GetUsedMemory (p : BufferPool) : Z := current_memory p.

(** [BufferPool::GetMaxMemory] *)
Definition GetMaxMemory (p : BufferPool) : Z := maximum_memory p.

(** [BufferPool::GetQueryMaxMemory] *)
Definition GetQueryMaxMemory (p : BufferPool) : Z := GetMaxMemory p.

(** [BufferPool::IncreaseUsedMemory].  A tag is a value of the
    enumeration and so names a slot; on an index past the array [alter]
    leaves the slots as they are. *)
Definition IncreaseUsedMemory (tag : MemoryTag) (size : Z) (p : BufferPool) : BufferPool :=
  set_memory_usage_per_tag
    (alter (fun u => wrap (u + size)) tag (memory_usage_per_tag p))
    (set_current_memory (wrap (current_memory p + size)) p).

(** Modelled from the spec: the scoped reservation is declared in
    buffer_pool_reservation.hpp, not among the sources.  "[R.resize(m)]
    changes the reservation size, adjusting counters by the delta"; the
    delta is added as an [idx_t], so a shrinking reservation adds the
    two's complement of the difference. *)
Definition Reservation_Resize (tag : MemoryTag) (size new_size : Z) (p : BufferPool)
  : BufferPool :=
  IncreaseUsedMemory tag (wrap (new_size - size)) p.

(** Modelled from the spec: [BlockHandle::Unload] and
    [BlockHandle::UnloadAndTakeBlock] are defined in block_handle.cpp,
    not among the sources.  "Unloading decrements [current_memory] and
    the per-tag counter by exactly [alloc_size]"; the handle becomes
    Unloaded. *)
Definition unloaded (h : BlockHandle) : BlockHandle :=
  mkBlockHandle BLOCK_UNLOADED (readers h) (tag h) (alloc_size h)
    (eviction_timestamp h) (can_offload h).

Definition Unload (id : nat) (h : BlockHandle) (w : World) : World :=
  mkWorld (<[id := Some (unloaded h)]> (handles w))
          (Reservation_Resize (tag h) (alloc_size h) 0 (pool w)).

(** ** Hint insertion *)

Definition bump_timestamp (ts : Z) (h : BlockHandle) : BlockHandle :=
  mkBlockHandle (state h) (readers h) (tag h) (alloc_size h) ts (can_offload h).

(** [BufferPool::AddToEvictionQueue].  The argument is a
    [shared_ptr<BlockHandle>]: the result is [None] when [id] does not
    name a live handle, a call the program cannot make. *)
Definition AddToEvictionQueue (id : nat) (w : World) : option (bool * World) :=
  match weak_lock (handles w) (Some id) with
  | None => None
  | Some (_, h) =>
      let ts := wrap (eviction_timestamp h + 1) in
      let hp := <[id := Some (bump_timestamp ts h)]> (handles w) in
      let evict_node := mkNode (Some id) ts in
      let p1 := set_queue (queue (pool w) ++ [evict_node]) (pool w) in
      let p2 :=
        if negb (ts =? 1) then
          (* we add a newer version, i.e., we kill exactly one previous version *)
          set_total_dead_nodes (wrap (total_dead_nodes p1 + 1)) p1
        else p1 in
      let insertions := wrap (evict_queue_insertions p2 + 1) in
      let p3 := set_evict_queue_insertions insertions p2 in
      Some (INSERT_INTERVAL <=? insertions, mkWorld hp p3)
  end.

(** ** Eviction *)

(** [ConcurrentQueue::try_dequeue] *)
Definition try_dequeue (p : BufferPool) : option BufferEvictionNode * BufferPool :=
  match queue p with
  | [] => (None, p)
  | node :: q => (Some node, set_queue q p)
  end.

(** [ConcurrentQueue::size_approx] *)
Definition size_approx (p : BufferPool) : Z := Z.of_nat (length (queue p)).

(** The compare-exchange loop of [TryDequeueWithoutConcurrentPurge]: it
    leaves only once [purge_active] has been seen false and set. *)
Fixpoint spin_until_no_purge (fuel : nat) (p : BufferPool) : option BufferPool :=
  match fuel with
  | O => None
  | S fuel' =>
      if purge_active p then spin_until_no_purge fuel' p
      else Some (set_purge_active true p)
  end.

(** [BufferPool::TryDequeueWithoutConcurrentPurge]; [None] when the
    compare-exchange loop has not finished. *)
Definition TryDequeueWithoutConcurrentPurge (fuel : nat) (p : BufferPool)
  : option (option BufferEvictionNode * BufferPool) :=
  match spin_until_no_purge fuel p with
  | None => None
  | Some p1 =>
      (* dequeue a node, if possible *)
      let '(success, p2) := try_dequeue p1 in
      Some (success, set_purge_active false p2)
  end.

(** [BufferPool::EvictionResult]: [reservation] is the size held by
    the returned [TempBufferPoolReservation], [taken] names the handle
    whose buffer was moved into [*buffer], if any. *)
Record EvictionResult : Type := mkEvictionResult {
  success : bool;
  reservation : Z;
  taken : option nat
}.

Definition dead_node_seen (p : BufferPool) : BufferPool :=
  set_total_dead_nodes (wrap (total_dead_nodes p - 1)) p.

(** The [while] loop of [BufferPool::EvictBlocks]; [buffer] tells
    whether the caller passed a [unique_ptr<FileBuffer> *]. *)
Fixpoint EvictBlocks_loop (fuel : nat) (tag : MemoryTag) (extra_memory memory_limit : Z)
    (buffer : bool) (w : World) : outcome EvictionResult :=
  match fuel with
  | O => Diverges
  | S fuel' =>
      if memory_limit <? current_memory (pool w) then
        (* get a block to unpin from the queue *)
        let dequeued :=
          match try_dequeue (pool w) with
          | (Some node, p1) => Some (Some node, p1)
          | (None, p1) => TryDequeueWithoutConcurrentPurge fuel p1
          end in
        match dequeued with
        | None => Diverges
        | Some (None, p1) =>
            (* still no success, we return *)
            Returns (mkEvictionResult false 0 None)
                    (mkWorld (handles w) (Reservation_Resize tag extra_memory 0 p1))
        | Some (Some node, p1) =>
            let p2 := set_evict_queue_insertions (wrap (evict_queue_insertions p1 - 1)) p1 in
            match TryGetBlockHandle (handles w) node with
            | None =>
                EvictBlocks_loop fuel' tag extra_memory memory_limit buffer
                  (mkWorld (handles w) (dead_node_seen p2))
            | Some (id, h) =>
                if negb (CanUnload node h) then
                  (* something changed in the mean-time, bail out *)
                  EvictBlocks_loop fuel' tag extra_memory memory_limit buffer
                    (mkWorld (handles w) (dead_node_seen p2))
                else if buffer && (alloc_size h =? extra_memory) then
                  (* we can re-use the memory directly *)
                  Returns (mkEvictionResult true extra_memory (Some id))
                          (Unload id h (mkWorld (handles w) p2))
                else
                  (* release the memory and mark the block as unloaded *)
                  EvictBlocks_loop fuel' tag extra_memory memory_limit buffer
                    (Unload id h (mkWorld (handles w) p2))
            end
        end
      else Returns (mkEvictionResult true extra_memory None) w
  end.

(** [BufferPool::EvictBlocks] *)
Definition EvictBlocks (fuel : nat) (tag : MemoryTag) (extra_memory memory_limit : Z)
    (buffer : bool) (w : World) : outcome EvictionResult :=
  EvictBlocks_loop fuel tag extra_memory memory_limit buffer
    (on_pool (Reservation_Resize tag 0 extra_memory) w).

(** ** Purge *)

(** The compaction loop of [PurgeIteration]: [remaining] iterations are
    left, [i] is the loop index.  The assignment
    [purge_nodes[alive_nodes++] = std::move(node)] writes the target
    slot and then leaves [node], which is [purge_nodes[i]], moved-from:
    it keeps its timestamp and its weak pointer is empty.  The weak
    pointer is a [std::weak_ptr], whose move assignment empties its
    source also when source and target are one object, so for
    [alive_nodes == i] the slot ends up empty. *)
Fixpoint compact_alive (hp : Heap) (remaining i alive_nodes : nat)
    (nodes : list BufferEvictionNode) : list BufferEvictionNode * nat :=
  match remaining with
  | O => (nodes, alive_nodes)
  | S remaining' =>
      match nodes !! i with
      | None => (nodes, alive_nodes)
      | Some node =>
          match TryGetBlockHandle hp node with
          | Some _ =>
              compact_alive hp remaining' (S i) (S alive_nodes)
                (<[i := mkNode None (timestamp node)]> (<[alive_nodes := node]> nodes))
          | None => compact_alive hp remaining' (S i) alive_nodes nodes
          end
      end
  end.

(** The scratch vector after the bulk dequeue and the compaction, the
    hints dequeued, and the number of alive ones. *)
Definition PurgeIteration_scan (purge_size : Z) (w : World)
  : list BufferEvictionNode * list BufferEvictionNode * nat :=
  let p := pool w in
  let previous_purge_size := Z.of_nat (length (purge_nodes p)) in
  let nodes0 :=
    if (purge_size <? previous_purge_size / 2) || (previous_purge_size <? purge_size)
    then resize (Z.to_nat purge_size) default_node (purge_nodes p)
    else purge_nodes p in
  (* bulk purge *)
  let dequeued := take (Z.to_nat purge_size) (queue p) in
  let actually_dequeued := length dequeued in
  let nodes1 := dequeued ++ drop actually_dequeued nodes0 in
  (* retrieve all alive nodes that have been wrongly dequeued *)
  let '(nodes2, alive_nodes) := compact_alive (handles w) actually_dequeued 0 0 nodes1 in
  (nodes2, dequeued, alive_nodes).

(** The hints [PurgeIteration] puts back into the queue. *)
Definition PurgeIteration_kept (purge_size : Z) (w : World) : list BufferEvictionNode :=
  let '(nodes, _, alive_nodes) := PurgeIteration_scan purge_size w in
  take alive_nodes nodes.

(** [BufferPool::PurgeIteration] *)
Definition PurgeIteration (purge_size : Z) (w : World) : World :=
  let '(nodes, dequeued, alive_nodes) := PurgeIteration_scan purge_size w in
  let p := pool w in
  let actually_dequeued := Z.of_nat (length dequeued) in
  (* bulk enqueue *)
  let q := drop (Z.to_nat purge_size) (queue p) ++ take alive_nodes nodes in
  mkWorld (handles w)
    (set_total_dead_nodes
       (wrap (total_dead_nodes p - wrap (actually_dequeued - Z.of_nat alive_nodes)))
       (set_queue q (set_purge_nodes nodes p))).

(** The state on leaving [PurgeQueue]. *)
Definition purge_done (w : World) : World := on_pool (set_purge_active false) w.

(** The sweep loop of [BufferPool::PurgeQueue].  The value returned is
    the number of calls of [PurgeIteration] made, kept for the
    statements about the loop's length. *)
Fixpoint PurgeQueue_loop (fuel : nat) (purge_size max_purges : Z) (iterations : nat)
    (w : World) : outcome nat :=
  if max_purges =? 0 then Returns iterations (purge_done w)
  else
    match fuel with
    | O => Diverges
    | S fuel' =>
        let w1 := PurgeIteration purge_size w in
        (* update relevant sizes and potentially early-out *)
        let approx_q_size := size_approx (pool w1) in
        if approx_q_size <? wrap (purge_size * EARLY_OUT_MULTIPLIER) then
          (* early-out according to (2.1) *)
          Returns (S iterations) (purge_done w1)
        else
          let approx_dead_nodes := total_dead_nodes (pool w1) in
          let approx_dead_nodes :=
            if approx_q_size <? approx_dead_nodes then approx_q_size else approx_dead_nodes in
          let approx_alive_nodes := wrap (approx_q_size - approx_dead_nodes) in
          if approx_dead_nodes <? wrap (approx_alive_nodes * (ALIVE_NODE_MULTIPLIER - 1)) then
            (* early-out according to (2.2) *)
            Returns (S iterations) (purge_done w1)
          else
            PurgeQueue_loop fuel' purge_size (wrap (max_purges - 1)) (S iterations) w1
    end.

(** What [PurgeQueue] computes before its sweep loop. *)
Definition purge_size_of (p : BufferPool) : Z :=
  wrap (evict_queue_insertions p * PURGE_SIZE_MULTIPLIER).

(** [BufferPool::PurgeQueue] *)
Definition PurgeQueue (fuel : nat) (w : World) : outcome nat :=
  (* only one thread purges the queue, all other threads early-out *)
  if purge_active (pool w) then Returns 0%nat w
  else
    let p1 := set_purge_active true (pool w) in
    (* retrieve the number of insertions since the previous purge *)
    let queue_insertions := evict_queue_insertions p1 in
    let p2 := set_evict_queue_insertions (wrap (queue_insertions - INSERT_INTERVAL)) p1 in
    (* we purge PURGE_SIZE_MULTIPLIER * queue_insertions nodes *)
    let purge_size := purge_size_of p1 in
    (* get an estimate of the queue size as-of now *)
    let approx_q_size := size_approx p2 in
    let w2 := mkWorld (handles w) p2 in
    if approx_q_size <? wrap (purge_size * EARLY_OUT_MULTIPLIER) then
      Returns 0%nat (purge_done w2)
    else if purge_size =? 0 then Throws DivisionByZero w2
    else PurgeQueue_loop fuel purge_size (approx_q_size / purge_size) 0 w2.

(** ** SetLimit *)

Definition limit_message : string :=
  "Failed to change memory limit to %lld: could not free up enough memory for the new limit%s".

(** The temporary [EvictionResult] dies at the end of the condition it
    appears in, and its reservation with it. *)
Definition drop_result (tag : MemoryTag) (r : EvictionResult) (w : World) : World :=
  on_pool (Reservation_Resize tag (reservation r) 0) w.

(** The second half of [BufferPool::SetLimit], from the second call of
    [EvictBlocks] on: [old_limit] is the limit saved before the new one
    was stored. *)
Definition SetLimit_evict_again (fuel : nat) (limit : Z) (exception_postscript : string)
    (old_limit : Z) (w : World) : outcome unit :=
  match EvictBlocks fuel EXTENSION 0 limit false w with
  | Diverges => Diverges
  | Throws e w3 => Throws e w3
  | Returns r2 w3 =>
      let w3 := drop_result EXTENSION r2 w3 in
      if negb (success r2) then
        (* failed: go back to old limit *)
        Throws (OutOfMemoryException limit_message limit exception_postscript)
               (on_pool (set_maximum_memory old_limit) w3)
      else Returns tt w3
  end.

(** [BufferPool::SetLimit] *)
Definition SetLimit (fuel : nat) (limit : Z) (exception_postscript : string) (w : World)
  : outcome unit :=
  (* try to evict until the limit is reached *)
  match EvictBlocks fuel EXTENSION 0 limit false w with
  | Diverges => Diverges
  | Throws e w1 => Throws e w1
  | Returns r1 w1 =>
      let w1 := drop_result EXTENSION r1 w1 in
      if negb (success r1) then
        Throws (OutOfMemoryException limit_message limit exception_postscript) w1
      else
        let old_limit := maximum_memory (pool w1) in
        (* set the global maximum memory to the new limit if successful *)
        let w2 := on_pool (set_maximum_memory limit) w1 in
        (* evict again *)
        SetLimit_evict_again fuel limit exception_postscript old_limit w2
  end.

(** ** Properties of states *)

(** A hint is alive when [TryGetBlockHandle] returns its handle. *)
Definition alive (hp : Heap) (node : BufferEvictionNode) : Prop :=
  is_Some (TryGetBlockHandle hp node).

#[global] Instance alive_dec hp node : Decision (alive hp node).
Proof. unfold alive. apply _. Defined.

(** The weak reference of a hint can be upgraded. *)
Definition upgradable (hp : Heap) (node : BufferEvictionNode) : Prop :=
  is_Some (weak_lock hp (handle node)).

(** A hint for the handle [id] whose timestamp is the handle's current
    one: a live hint in the words of the specification. *)
Definition current_hint (hp : Heap) (id : nat) (node : BufferEvictionNode) : Prop :=
  handle node = Some id /\
  exists h, hp !! id = Some (Some h) /\ timestamp node = eviction_timestamp h.

#[global] Instance current_hint_dec hp id node : Decision (current_hint hp id node).
Proof.
  unfold current_hint.
  destruct (hp !! id) as [[h|]|] eqn:E.
  - destruct (decide (handle node = Some id /\ timestamp node = eviction_timestamp h))
      as [[H1 H2]|N].
    + left. split; [exact H1|]. exists h. split; [reflexivity|exact H2].
    + right. intros [H1 [h' [H2 H3]]]. apply N. split; [exact H1|]. congruence.
  - right. intros [_ [h' [H2 _]]]. discriminate.
  - right. intros [_ [h' [H2 _]]]. discriminate.
Defined.

(** I4 of the specification: at most one hint of the queue is current
    for a given handle. *)
Definition hint_liveness (w : World) : Prop :=
  forall id : nat,
    (length (filter (current_hint (handles w) id) (queue (pool w))) <= 1)%nat.

(** What the code outside the pool may do to the handles: create new
    ones, whose timestamp is zero, destroy them, and change everything
    about a handle but its eviction timestamp, which only
    [AddToEvictionQueue] writes. *)
Definition heap_evolves (hp hp' : Heap) : Prop :=
  (length hp <= length hp')%nat /\
  forall id h', hp' !! id = Some (Some h') ->
    match hp !! id with
    | Some (Some h) => eviction_timestamp h' = eviction_timestamp h
    | Some None => False
    | None => eviction_timestamp h' = 0
    end.

(** The states a pool and its handles can be in: a fresh pool, then
    any sequence of steps of the surrounding code and of calls of the
    pool's operations that return or throw [OutOfMemoryException].  A
    hint is added for an unpinned handle whose 64-bit timestamp is not
    about to wrap. *)
Inductive reachable : World -> Prop :=
| reach_new (maximum_memory : Z) :
    reachable (mkWorld [] (BufferPool_new maximum_memory))
| reach_env w hp' :
    reachable w -> heap_evolves (handles w) hp' -> reachable (set_handles hp' w)
| reach_increase w tag size :
    reachable w -> reachable (on_pool (IncreaseUsedMemory tag size) w)
| reach_add w id h b w' :
    reachable w ->
    handles w !! id = Some (Some h) ->
    readers h = 0 ->
    eviction_timestamp h + 1 < idx_modulus ->
    AddToEvictionQueue id w = Some (b, w') ->
    reachable w'
| reach_evict w fuel tag extra_memory memory_limit buffer r w' :
    reachable w ->
    EvictBlocks fuel tag extra_memory memory_limit buffer w = Returns r w' ->
    reachable w'
| reach_purge w fuel n w' :
    reachable w -> PurgeQueue fuel w = Returns n w' -> reachable w'
| reach_set_limit w fuel limit postscript w' :
    reachable w -> SetLimit fuel limit postscript w = Returns tt w' -> reachable w'
| reach_set_limit_oom w fuel limit postscript e w' :
    reachable w -> SetLimit fuel limit postscript w = Throws e w' -> reachable w'.

(** A node moved from: its timestamp without its weak pointer. *)
Definition emptied (node : BufferEvictionNode) : BufferEvictionNode :=
  mkNode None (timestamp node).

(** What the compaction loop leaves at the front of the scratch
    vector for the hints [l] it has gone through: nothing for a hint
    that is not alive, the hint itself for an alive one, but an emptied
    node for the alive hints met while [lead] holds, that is before the
    first hint that is not alive. *)
Fixpoint compacted (hp : Heap) (lead : bool) (l : list BufferEvictionNode)
  : list BufferEvictionNode :=
  match l with
  | [] => []
  | node :: l' =>
      if decide (alive hp node) then
        (if lead then emptied node else node) :: compacted hp lead l'
      else compacted hp false l'
  end.

(** The nodes of a queue that name a handle. *)
Definition named (l : list BufferEvictionNode) : list BufferEvictionNode :=
  filter (fun node => is_Some (handle node)) l.

(** The invariant behind I4: the hints of the queue that name a handle
    are pairwise distinct, name handles that have existed, and carry a
    timestamp no later than their handle's; timestamps are not
    negative. *)
Record queue_invariant (w : World) : Prop := mkQueueInvariant {
  inv_nodup : NoDup (named (queue (pool w)));
  inv_named : forall node id, node ∈ queue (pool w) ->
    handle node = Some id -> (id < length (handles w))%nat;
  inv_past : forall node id h, node ∈ queue (pool w) ->
    handle node = Some id -> handles w !! id = Some (Some h) ->
    timestamp node <= eviction_timestamp h;
  inv_nonneg : forall id h, handles w !! id = Some (Some h) -> 0 <= eviction_timestamp h
}.

(** What two states have in common when they differ only in the
    bookkeeping of the eviction queue: the same handles, memory
    counters, limit and purge flag. *)
Definition purge_equivalent (w1 w2 : World) : Prop :=
  handles w1 = handles w2 /\
  current_memory (pool w1) = current_memory (pool w2) /\
  maximum_memory (pool w1) = maximum_memory (pool w2) /\
  memory_usage_per_tag (pool w1) = memory_usage_per_tag (pool w2) /\
  purge_active (pool w1) = purge_active (pool w2).

(** What a purge may change: nothing but the bookkeeping of the
    eviction queue, which does not grow and gains no hint that names a
    handle. *)
Definition purges_only (w w' : World) : Prop :=
  handles w' = handles w /\
  current_memory (pool w') = current_memory (pool w) /\
  maximum_memory (pool w') = maximum_memory (pool w) /\
  memory_usage_per_tag (pool w') = memory_usage_per_tag (pool w) /\
  (length (queue (pool w')) <= length (queue (pool w)))%nat /\
  named (queue (pool w')) ⊆+ named (queue (pool w)).

(** What any operation may do to the handles and the hints naming
    them: the handles evolve and no such hint is added. *)
Definition hints_shrink (w w' : World) : Prop :=
  heap_evolves (handles w) (handles w') /\
  named (queue (pool w')) ⊆+ named (queue (pool w)).

(** What an eviction may change besides the counters: it unloads
    handles and removes hints. *)
Definition queue_shrinks (w w' : World) : Prop :=
  heap_evolves (handles w) (handles w') /\
  queue (pool w') ⊆+ queue (pool w).

(** The sum of the per-tag counters, as an [idx_t]. *)
Definition usage_total (p : BufferPool) : Z :=
  wrap (foldr Z.add 0 (memory_usage_per_tag p)).

(** The total counter agrees with the per-tag counters. *)
Definition accounted (p : BufferPool) : Prop :=
  current_memory p = usage_total p.

(** The pool after a hint has been dequeued by [EvictBlocks]. *)
Definition dequeued_one (q : list BufferEvictionNode) (p : BufferPool) : BufferPool :=
  set_evict_queue_insertions (wrap (evict_queue_insertions p - 1)) (set_queue q p).

(** The runs of the loop of [EvictBlocks] that return, one rule per
    way through the loop body: the memory fits, the queue is exhausted,
    the hint dequeued is dead, its buffer is handed over, its block is
    unloaded. *)
Inductive evict_run (tag : MemoryTag) (extra_memory memory_limit : Z) (buffer : bool)
  : World -> EvictionResult -> World -> Prop :=
| evict_fits w :
    current_memory (pool w) <= memory_limit ->
    evict_run tag extra_memory memory_limit buffer w
      (mkEvictionResult true extra_memory None) w
| evict_exhausted w :
    memory_limit < current_memory (pool w) ->
    queue (pool w) = [] ->
    purge_active (pool w) = false ->
    evict_run tag extra_memory memory_limit buffer w
      (mkEvictionResult false 0 None)
      (mkWorld (handles w)
         (Reservation_Resize tag extra_memory 0
            (set_purge_active false (set_purge_active true (pool w)))))
| evict_dead w node q r w' :
    memory_limit < current_memory (pool w) ->
    queue (pool w) = node :: q ->
    TryGetBlockHandle (handles w) node = None ->
    evict_run tag extra_memory memory_limit buffer
      (mkWorld (handles w) (dead_node_seen (dequeued_one q (pool w)))) r w' ->
    evict_run tag extra_memory memory_limit buffer w r w'
| evict_fast w node q id h :
    memory_limit < current_memory (pool w) ->
    queue (pool w) = node :: q ->
    TryGetBlockHandle (handles w) node = Some (id, h) ->
    buffer = true ->
    alloc_size h = extra_memory ->
    evict_run tag extra_memory memory_limit buffer w
      (mkEvictionResult true extra_memory (Some id))
      (Unload id h (mkWorld (handles w) (dequeued_one q (pool w))))
| evict_unload w node q id h r w' :
    memory_limit < current_memory (pool w) ->
    queue (pool w) = node :: q ->
    TryGetBlockHandle (handles w) node = Some (id, h) ->
    buffer && (alloc_size h =? extra_memory) = false ->
    evict_run tag extra_memory memory_limit buffer
      (Unload id h (mkWorld (handles w) (dequeued_one q (pool w)))) r w' ->
    evict_run tag extra_memory memory_limit buffer w r w'.

(** ** Example states *)

(** A loaded, unpinned block of 40 bytes, and a pool of limit 100
    that accounts for it. *)
Definition block40 : BlockHandle := mkBlockHandle BLOCK_LOADED 0 0%nat 40 0 true.

Definition world40 : World :=
  mkWorld [Some block40] (IncreaseUsedMemory 0%nat 40 (BufferPool_new 100)).

(** The state after [n] hints have been added for the handle [id]. *)
Fixpoint add_hints (n : nat) (id : nat) (w : World) : World :=
  match n with
  | O => w
  | S n' =>
      match AddToEvictionQueue id w with
      | Some (_, w') => add_hints n' id w'
      | None => w
      end
  end.

(** The handle [id] is pinned again: it has one reader. *)
Definition pin (id : nat) (w : World) : World :=
  match handles w !! id with
  | Some (Some h) =>
      set_handles
        (<[id := Some (mkBlockHandle (state h) (readers h + 1) (tag h) (alloc_size h)
                         (eviction_timestamp h) (can_offload h))]> (handles w)) w
  | _ => w
  end.

(** The last strong reference to the handle [id] goes away. *)
Definition destroy (id : nat) (w : World) : World :=
  set_handles (<[id := None]> (handles w)) w.

(** A pool that accounts for 100 bytes, 40 of them in [block40]. *)
Definition world100 : World :=
  mkWorld [Some block40] (IncreaseUsedMemory 0%nat 100 (BufferPool_new 100)).

(** Eight hints for one handle in the queue, one insertion counted. *)
Definition sweep_world : World :=
  on_pool (set_evict_queue_insertions 1) (add_hints 8 0 world40).

(** Eight hints for one handle in the queue, 1025 insertions counted:
    a first purge leaves one insertion counted, a second sweeps. *)
Definition twice_world : World :=
  on_pool (set_evict_queue_insertions 1025) (add_hints 8 0 world40).


(** * Properties *)

(** ** Arithmetic of [idx_t] *)

Lemma wrap_range (x : Z) : 0 <= wrap x < idx_modulus.
Proof. unfold wrap, idx_modulus. apply Z.mod_pos_bound. lia. Qed.

Lemma wrap_small (x : Z) : 0 <= x < idx_modulus -> wrap x = x.
Proof. intros H. unfold wrap. apply Z.mod_small. exact H. Qed.

Lemma wrap_wrap (x : Z) : wrap (wrap x) = wrap x.
Proof. apply wrap_small, wrap_range. Qed.

(** ** Construction *)

(** C10: right after [BufferPool(maximum_memory)] the used memory is 0,
    the maximum and the query maximum are [maximum_memory], every
    per-tag slot is 0, the insertion and dead-node counters are 0, no
    purge is active and the eviction queue is empty. *)
Theorem BufferPool_new_initial (maximum_memory : Z) :
  GetUsedMemory (BufferPool_new maximum_memory) = 0 /\
  GetMaxMemory (BufferPool_new maximum_memory) = maximum_memory /\
  GetQueryMaxMemory (BufferPool_new maximum_memory) = maximum_memory /\
  length (memory_usage_per_tag (BufferPool_new maximum_memory)) = MEMORY_TAG_COUNT /\
  Forall (fun u => u = 0) (memory_usage_per_tag (BufferPool_new maximum_memory)) /\
  evict_queue_insertions (BufferPool_new maximum_memory) = 0 /\
  total_dead_nodes (BufferPool_new maximum_memory) = 0 /\
  purge_active (BufferPool_new maximum_memory) = false /\
  queue (BufferPool_new maximum_memory) = [].
Proof.
  repeat split.
  cbn. repeat constructor.
Qed.

(** ** Hint insertion *)

Lemma weak_lock_Some (hp : Heap) (id : nat) (h : BlockHandle) :
  hp !! id = Some (Some h) -> weak_lock hp (Some id) = Some (id, h).
Proof. intros H. cbn. rewrite H. reflexivity. Qed.

Lemma AddToEvictionQueue_run (id : nat) (h : BlockHandle) (w : World) :
  handles w !! id = Some (Some h) ->
  exists (b : bool) (w' : World),
    AddToEvictionQueue id w = Some (b, w') /\
    handles w' = <[id := Some (bump_timestamp (wrap (eviction_timestamp h + 1)) h)]> (handles w) /\
    handles w' !! id = Some (Some (bump_timestamp (wrap (eviction_timestamp h + 1)) h)) /\
    queue (pool w') = queue (pool w) ++ [mkNode (Some id) (wrap (eviction_timestamp h + 1))] /\
    total_dead_nodes (pool w') =
      (if decide (wrap (eviction_timestamp h + 1) = 1) then total_dead_nodes (pool w)
       else wrap (total_dead_nodes (pool w) + 1)) /\
    evict_queue_insertions (pool w') = wrap (evict_queue_insertions (pool w) + 1) /\
    (b = true <-> INSERT_INTERVAL <= wrap (evict_queue_insertions (pool w) + 1)) /\
    current_memory (pool w') = current_memory (pool w) /\
    maximum_memory (pool w') = maximum_memory (pool w) /\
    purge_active (pool w') = purge_active (pool w).
Proof.
  intros Hh.
  unfold AddToEvictionQueue. rewrite (weak_lock_Some _ _ _ Hh).
  eexists _, _. split; [reflexivity|]. cbn.
  split; [reflexivity|].
  split.
  { apply list_lookup_insert_eq. apply lookup_lt_Some in Hh. exact Hh. }
  destruct (decide (wrap (eviction_timestamp h + 1) = 1)) as [E|E].
  - rewrite E. cbn. repeat split; try reflexivity; rewrite Z.leb_le; tauto.
  - apply Z.eqb_neq in E. rewrite E. cbn.
    repeat split; try reflexivity; rewrite Z.leb_le; tauto.
Qed.

(** C4: for a handle without readers, [AddToEvictionQueue] increments
    the handle's eviction timestamp to [ts], appends the one hint
    [{weak(h), ts}] to the queue, increments [total_dead_nodes] exactly
    when [ts != 1], increments [evict_queue_insertions], and returns
    true exactly when the incremented counter has reached
    [INSERT_INTERVAL].  Increments are those of [idx_t].  The handle
    stored afterwards has [eviction_timestamp == ts] and is otherwise
    as before, and no other handle is changed. *)
Theorem AddToEvictionQueue_effect (id : nat) (h : BlockHandle) (w : World) :
  handles w !! id = Some (Some h) ->
  readers h = 0 ->
  exists (b : bool) (w' : World),
    AddToEvictionQueue id w = Some (b, w') /\
    handles w' = <[id := Some (bump_timestamp (wrap (eviction_timestamp h + 1)) h)]> (handles w) /\
    handles w' !! id = Some (Some (bump_timestamp (wrap (eviction_timestamp h + 1)) h)) /\
    queue (pool w') = queue (pool w) ++ [mkNode (Some id) (wrap (eviction_timestamp h + 1))] /\
    total_dead_nodes (pool w') =
      (if decide (wrap (eviction_timestamp h + 1) = 1) then total_dead_nodes (pool w)
       else wrap (total_dead_nodes (pool w) + 1)) /\
    evict_queue_insertions (pool w') = wrap (evict_queue_insertions (pool w) + 1) /\
    (b = true <-> INSERT_INTERVAL <= wrap (evict_queue_insertions (pool w) + 1)) /\
    current_memory (pool w') = current_memory (pool w) /\
    maximum_memory (pool w') = maximum_memory (pool w) /\
    purge_active (pool w') = purge_active (pool w) /\
    (exists h',
       handles w' !! id = Some (Some h') /\
       eviction_timestamp h' = wrap (eviction_timestamp h + 1) /\
       state h' = state h /\ readers h' = readers h /\ tag h' = tag h /\
       alloc_size h' = alloc_size h /\ can_offload h' = can_offload h) /\
    (forall id', id' <> id -> handles w' !! id' = handles w !! id').
Proof.
  intros Hh _.
  destruct (AddToEvictionQueue_run id h w Hh)
    as (b & w' & Hrun & Hhp & Hl & Hq & Hd & Hi & Hb & Hc & Hm & Hp).
  exists b, w'. repeat (split; [assumption|]).
  split.
  - exists (bump_timestamp (wrap (eviction_timestamp h + 1)) h).
    split; [exact Hl|]. repeat split.
  - intros id' Hne. rewrite Hhp. apply list_lookup_insert_ne. congruence.
Qed.

Lemma AddToEvictionQueue_effect_witness :
  exists (b : bool) (w' : World) (h' : BlockHandle),
    AddToEvictionQueue 0%nat world40 = Some (b, w') /\
    handles w' !! 0%nat = Some (Some h') /\
    eviction_timestamp h' = 1 /\
    queue (pool w') = [mkNode (Some 0%nat) 1] /\
    total_dead_nodes (pool w') = 0 /\
    evict_queue_insertions (pool w') = 1 /\
    b = false.
Proof.
  destruct (AddToEvictionQueue_effect 0%nat block40 world40 eq_refl eq_refl)
    as (b & w' & Hrun & _ & _ & Hq & Hd & Hi & Hb & _ & _ & _ & (h' & Hl & Hts & _) & _).
  exists b, w', h'. split; [exact Hrun|].
  split; [exact Hl|]. split; [exact Hts|].
  split; [exact Hq|]. split; [exact Hd|]. split; [exact Hi|].
  destruct b; [|reflexivity].
  exfalso. destruct Hb as [Hb _]. specialize (Hb eq_refl).
  vm_compute in Hb. apply Hb. reflexivity.
Defined.

(** ** One purge iteration *)

Lemma TryGetBlockHandle_Some (hp : Heap) (node : BufferEvictionNode) :
  alive hp node <->
  exists id h, handle node = Some id /\ hp !! id = Some (Some h) /\
               timestamp node = eviction_timestamp h /\ BlockHandle_CanUnload h = true.
Proof.
  unfold alive, TryGetBlockHandle, weak_lock, CanUnload.
  destruct (handle node) as [id|]; cbn.
  - destruct (hp !! id) as [[h|]|] eqn:E; cbn.
    + destruct (Z.eqb_spec (timestamp node) (eviction_timestamp h)) as [Ets|Ets]; cbn.
      * destruct (BlockHandle_CanUnload h) eqn:Ec; cbn.
        -- split; [intros _; exists id, h; auto | intros _; eexists; reflexivity].
        -- split; [intros [x Hx]; discriminate|].
           intros (id' & h' & Hid & Hh & _ & Hc). congruence.
      * split; [intros [x Hx]; discriminate|].
        intros (id' & h' & Hid & Hh & Hts & _). congruence.
    + split; [intros [x Hx]; discriminate|].
      intros (id' & h' & Hid & Hh & _). congruence.
    + split; [intros [x Hx]; discriminate|].
      intros (id' & h' & Hid & Hh & _). congruence.
  - split; [intros [x Hx]; discriminate|].
    intros (id' & h' & Hid & _). discriminate.
Qed.

Lemma alive_upgradable (hp : Heap) (node : BufferEvictionNode) :
  alive hp node -> upgradable hp node.
Proof.
  unfold alive, upgradable, TryGetBlockHandle.
  destruct (weak_lock hp (handle node)); [eauto|intros [x Hx]; discriminate].
Qed.

Lemma alive_named (hp : Heap) (node : BufferEvictionNode) :
  alive hp node -> is_Some (handle node).
Proof.
  intros H. apply TryGetBlockHandle_Some in H. destruct H as (id & h & Hid & _). eauto.
Qed.


(** One node is put back for each alive hint, with the hint's
    timestamp: the hint itself or the hint emptied. *)
Lemma compacted_Forall2 (hp : Heap) (l : list BufferEvictionNode) (lead : bool) :
  Forall2 (fun kept hint => timestamp kept = timestamp hint /\
                            (kept = hint \/ kept = emptied hint))
          (compacted hp lead l) (filter (alive hp) l).
Proof.
  revert lead. induction l as [|x l IH]; intros lead; [constructor|]. cbn [compacted].
  destruct (decide (alive hp x)) as [Hx|Hx].
  - rewrite (filter_cons_True _ _ _ Hx). constructor; [|apply IH].
    destruct lead; cbn; auto.
  - rewrite (filter_cons_False _ _ _ Hx). apply IH.
Qed.

Lemma compacted_length (hp : Heap) (l : list BufferEvictionNode) (lead : bool) :
  length (compacted hp lead l) = length (filter (alive hp) l).
Proof. eapply Forall2_length, compacted_Forall2. Qed.

Lemma named_compacted (hp : Heap) (l : list BufferEvictionNode) (lead : bool) :
  named (compacted hp lead l) `sublist_of` named l.
Proof.
  revert lead. unfold named.
  induction l as [|x l IH]; intros lead; [reflexivity|]. cbn [compacted].
  destruct (decide (alive hp x)) as [Hx|Hx].
  - rewrite (filter_cons_True _ x l) by (eapply alive_named, Hx).
    destruct lead.
    + rewrite filter_cons_False by (cbn; intros [y Hy]; discriminate).
      apply sublist_cons, IH.
    + rewrite filter_cons_True by (eapply alive_named, Hx).
      apply sublist_skip, IH.
  - destruct (decide (is_Some (handle x))) as [Hn|Hn].
    + rewrite (filter_cons_True _ x l Hn). apply sublist_cons, IH.
    + rewrite (filter_cons_False _ x l Hn). apply IH.
Qed.

(** The compaction loop leaves [compacted] at the front of the scratch
    vector; [alive_nodes == i] holds until the first hint that is not
    alive. *)
Lemma compact_alive_spec (hp : Heap) (remaining : nat) :
  forall (i alive_nodes : nat) (nodes : list BufferEvictionNode),
    (alive_nodes <= i)%nat ->
    (i + remaining <= length nodes)%nat ->
    take (compact_alive hp remaining i alive_nodes nodes).2
         (compact_alive hp remaining i alive_nodes nodes).1
    = take alive_nodes nodes
      ++ compacted hp (bool_decide (alive_nodes = i)) (take remaining (drop i nodes)) /\
    length (compact_alive hp remaining i alive_nodes nodes).1 = length nodes /\
    (alive_nodes <= (compact_alive hp remaining i alive_nodes nodes).2 <= i + remaining)%nat.
Proof.
  induction remaining as [|k IH]; intros i a nodes Ha Hlen.
  - cbn. rewrite take_0. cbn. rewrite app_nil_r. repeat split; lia.
  - cbn [compact_alive].
    destruct (nodes !! i) as [node|] eqn:Ei.
    2:{ apply lookup_ge_None in Ei. lia. }
    rewrite (drop_S _ _ _ Ei). cbn [take compacted].
    destruct (TryGetBlockHandle hp node) as [got|] eqn:Eg.
    + assert (Halive : alive hp node) by (unfold alive; rewrite Eg; eauto).
      destruct (decide (alive hp node)) as [_|N]; [|contradiction].
      set (nodes' := <[i := mkNode None (timestamp node)]> (<[a := node]> nodes)).
      assert (Hl' : length nodes' = length nodes).
      { unfold nodes'. rewrite !length_insert. reflexivity. }
      destruct (IH (S i) (S a) nodes') as (Ht & Hl & Hb); [lia | lia |].
      rewrite Ht, Hl.
      assert (Hlead : bool_decide (S a = S i) = bool_decide (a = i)).
      { apply bool_decide_ext. lia. }
      assert (Htake : take (S a) nodes'
                      = take a nodes ++ [if bool_decide (a = i) then emptied node else node]).
      { assert (Ea : nodes' !! a
                     = Some (if bool_decide (a = i) then emptied node else node)).
        { unfold nodes'. destruct (decide (a = i)) as [->|Hne].
          - rewrite bool_decide_eq_true_2 by reflexivity.
            apply list_lookup_insert_eq. rewrite length_insert. lia.
          - rewrite bool_decide_eq_false_2 by exact Hne.
            rewrite list_lookup_insert_ne by congruence.
            apply list_lookup_insert_eq. lia. }
        rewrite (take_S_r _ _ _ Ea). f_equal.
        unfold nodes'. rewrite take_insert_ge by lia. rewrite take_insert_ge by lia.
        reflexivity. }
      assert (Hdrop : drop (S i) nodes' = drop (S i) nodes).
      { unfold nodes'. rewrite drop_insert_lt by lia. rewrite drop_insert_lt by lia.
        reflexivity. }
      rewrite Htake, Hdrop, Hlead.
      rewrite <- app_assoc. cbn. repeat split; [exact Hl' | lia | lia].
    + assert (Hdead : ~ alive hp node).
      { unfold alive. rewrite Eg. intros [x Hx]. discriminate. }
      destruct (decide (alive hp node)) as [N|_]; [contradiction|].
      destruct (IH (S i) a nodes) as (Ht & Hl & Hb); [lia | lia |].
      rewrite Ht, Hl.
      rewrite (bool_decide_eq_false_2 (a = S i)) by lia.
      repeat split; lia.
Qed.

Lemma PurgeIteration_scan_spec (purge_size : Z) (w : World) :
  exists nodes,
    PurgeIteration_scan purge_size w =
      (nodes, take (Z.to_nat purge_size) (queue (pool w)),
       length (compacted (handles w) true (take (Z.to_nat purge_size) (queue (pool w))))) /\
    take (length (compacted (handles w) true (take (Z.to_nat purge_size) (queue (pool w)))))
         nodes
    = compacted (handles w) true (take (Z.to_nat purge_size) (queue (pool w))).
Proof.
  unfold PurgeIteration_scan.
  set (dequeued := take (Z.to_nat purge_size) (queue (pool w))).
  match goal with
  | |- context [dequeued ++ drop (length dequeued) ?v] => generalize v; intros nodes0
  end.
  set (nodes1 := dequeued ++ drop (length dequeued) nodes0).
  destruct (compact_alive_spec (handles w) (length dequeued) 0 0 nodes1) as (Ht & Hl & Hb).
  { lia. }
  { unfold nodes1. rewrite length_app. lia. }
  destruct (compact_alive (handles w) (length dequeued) 0 0 nodes1) as [nodes2 n] eqn:E.
  cbn [fst snd] in *.
  assert (Hd : take (length dequeued) (drop 0 nodes1) = dequeued).
  { rewrite drop_0. unfold nodes1. apply take_app_length. }
  rewrite Hd, take_0 in Ht. cbn [app] in Ht.
  rewrite bool_decide_eq_true_2 in Ht by reflexivity.
  assert (Hn : n = length (compacted (handles w) true dequeued)).
  { rewrite <- Ht. rewrite length_take, Hl. unfold nodes1. rewrite length_app. lia. }
  exists nodes2. subst n. split; [reflexivity | exact Ht].
Qed.

Lemma PurgeIteration_kept_compacted (purge_size : Z) (w : World) :
  PurgeIteration_kept purge_size w =
  compacted (handles w) true (take (Z.to_nat purge_size) (queue (pool w))).
Proof.
  unfold PurgeIteration_kept.
  destruct (PurgeIteration_scan_spec purge_size w) as (nodes & -> & Ht).
  exact Ht.
Qed.

Lemma PurgeIteration_queue (purge_size : Z) (w : World) :
  queue (pool (PurgeIteration purge_size w)) =
  drop (Z.to_nat purge_size) (queue (pool w)) ++
  compacted (handles w) true (take (Z.to_nat purge_size) (queue (pool w))).
Proof.
  unfold PurgeIteration.
  destruct (PurgeIteration_scan_spec purge_size w) as (nodes & -> & Ht).
  cbn. rewrite Ht. reflexivity.
Qed.

Lemma PurgeIteration_total_dead_nodes (purge_size : Z) (w : World) :
  total_dead_nodes (pool (PurgeIteration purge_size w)) =
  wrap (total_dead_nodes (pool w) -
        wrap (Z.of_nat (length (take (Z.to_nat purge_size) (queue (pool w)))) -
              Z.of_nat (length (filter (alive (handles w))
                                  (take (Z.to_nat purge_size) (queue (pool w))))))).
Proof.
  unfold PurgeIteration.
  destruct (PurgeIteration_scan_spec purge_size w) as (nodes & -> & Ht).
  cbn. rewrite compacted_length. reflexivity.
Qed.

Lemma PurgeIteration_frame (purge_size : Z) (w : World) :
  handles (PurgeIteration purge_size w) = handles w /\
  current_memory (pool (PurgeIteration purge_size w)) = current_memory (pool w) /\
  maximum_memory (pool (PurgeIteration purge_size w)) = maximum_memory (pool w) /\
  memory_usage_per_tag (pool (PurgeIteration purge_size w)) = memory_usage_per_tag (pool w) /\
  purge_active (pool (PurgeIteration purge_size w)) = purge_active (pool w) /\
  evict_queue_insertions (pool (PurgeIteration purge_size w)) = evict_queue_insertions (pool w).
Proof.
  unfold PurgeIteration.
  destruct (PurgeIteration_scan purge_size w) as [[nodes dequeued] n].
  cbn. repeat split.
Qed.

(** C1, as the code has it: a purge iteration drops or puts back a
    dequeued hint according to [TryGetBlockHandle] alone.  The nodes put
    back into the queue correspond one to one, in order, to the
    dequeued hints for which it returns the handle, that is those whose
    weak reference can be upgraded, whose timestamp is the handle's
    current eviction timestamp and whose handle can be unloaded; each
    carries its hint's timestamp and is the hint or the hint emptied.
    The other hints are dropped and their number is subtracted from
    [total_dead_nodes]. *)
Theorem PurgeIteration_keeps_alive (purge_size : Z) (w : World) :
  queue (pool (PurgeIteration purge_size w)) =
    drop (Z.to_nat purge_size) (queue (pool w)) ++ PurgeIteration_kept purge_size w /\
  Forall2 (fun kept hint => timestamp kept = timestamp hint /\
                            (kept = hint \/ kept = emptied hint))
          (PurgeIteration_kept purge_size w)
          (filter (alive (handles w)) (take (Z.to_nat purge_size) (queue (pool w)))) /\
  length (PurgeIteration_kept purge_size w) =
    length (filter (alive (handles w)) (take (Z.to_nat purge_size) (queue (pool w)))) /\
  (forall node,
     alive (handles w) node <->
     exists id h, handle node = Some id /\ handles w !! id = Some (Some h) /\
                  timestamp node = eviction_timestamp h /\
                  BlockHandle_CanUnload h = true) /\
  total_dead_nodes (pool (PurgeIteration purge_size w)) =
    wrap (total_dead_nodes (pool w) -
          wrap (Z.of_nat (length (take (Z.to_nat purge_size) (queue (pool w)))) -
                Z.of_nat (length (PurgeIteration_kept purge_size w)))).
Proof.
  split; [rewrite PurgeIteration_queue, PurgeIteration_kept_compacted; reflexivity|].
  split; [rewrite PurgeIteration_kept_compacted; apply compacted_Forall2|].
  split; [rewrite PurgeIteration_kept_compacted; apply compacted_length|].
  split; [intros node; apply TryGetBlockHandle_Some|].
  rewrite PurgeIteration_kept_compacted, compacted_length.
  apply PurgeIteration_total_dead_nodes.
Qed.

Lemma PurgeIteration_drops_stale_hint :
  take 1 (queue (pool (add_hints 2 0 world40))) = [mkNode (Some 0%nat) 1] /\
  upgradable (handles (add_hints 2 0 world40)) (mkNode (Some 0%nat) 1) /\
  PurgeIteration_kept 1 (add_hints 2 0 world40) = [] /\
  queue (pool (PurgeIteration 1 (add_hints 2 0 world40))) = [mkNode (Some 0%nat) 2].
Proof.
  split; [reflexivity|].
  split; [eexists; reflexivity|].
  split; reflexivity.
Qed.

(** ** Faults in the dead-node and purge arithmetic *)

(** C8: [PurgeQueue] on a pool whose insertion counter is 0, a fresh
    pool for one, gets past the early-out with [purge_size == 0] and
    divides the queue size by it. *)
Theorem PurgeQueue_divides_by_zero (fuel : nat) (maximum_memory : Z) :
  purge_size_of (BufferPool_new maximum_memory) = 0 /\
  exists w', PurgeQueue fuel (mkWorld [] (BufferPool_new maximum_memory))
             = Throws DivisionByZero w'.
Proof.
  split; [reflexivity|].
  eexists. reflexivity.
Qed.

(** C9: a hint enqueued with timestamp 1 never counted as dead;
    when [EvictBlocks] then finds its handle pinned again, or
    destroyed, it decrements [total_dead_nodes] from 0 to [2^64 - 1]. *)
Theorem EvictBlocks_wraps_total_dead_nodes :
  total_dead_nodes (pool (pin 0 (add_hints 1 0 world40))) = 0 /\
  (exists r w', EvictBlocks 2 0%nat 0 0 false (pin 0 (add_hints 1 0 world40)) = Returns r w' /\
                total_dead_nodes (pool w') = idx_modulus - 1) /\
  total_dead_nodes (pool (destroy 0 (add_hints 1 0 world40))) = 0 /\
  (exists r w', EvictBlocks 2 0%nat 0 0 false (destroy 0 (add_hints 1 0 world40)) = Returns r w' /\
                total_dead_nodes (pool w') = idx_modulus - 1).
Proof.
  split; [reflexivity|].
  split; [eexists _, _; split; reflexivity|].
  split; [reflexivity|].
  eexists _, _; split; reflexivity.
Qed.

(** ** Eviction *)

Lemma IncreaseUsedMemory_frame (tag : MemoryTag) (size : Z) (p : BufferPool) :
  current_memory (IncreaseUsedMemory tag size p) = wrap (current_memory p + size) /\
  maximum_memory (IncreaseUsedMemory tag size p) = maximum_memory p /\
  queue (IncreaseUsedMemory tag size p) = queue p /\
  evict_queue_insertions (IncreaseUsedMemory tag size p) = evict_queue_insertions p /\
  total_dead_nodes (IncreaseUsedMemory tag size p) = total_dead_nodes p /\
  purge_active (IncreaseUsedMemory tag size p) = purge_active p.
Proof. repeat split. Qed.

Lemma Reservation_Resize_frame (tag : MemoryTag) (size new_size : Z) (p : BufferPool) :
  current_memory (Reservation_Resize tag size new_size p)
    = wrap (current_memory p + wrap (new_size - size)) /\
  maximum_memory (Reservation_Resize tag size new_size p) = maximum_memory p /\
  queue (Reservation_Resize tag size new_size p) = queue p /\
  evict_queue_insertions (Reservation_Resize tag size new_size p) = evict_queue_insertions p /\
  total_dead_nodes (Reservation_Resize tag size new_size p) = total_dead_nodes p /\
  purge_active (Reservation_Resize tag size new_size p) = purge_active p.
Proof. repeat split. Qed.

Lemma Reservation_Resize_same (tag : MemoryTag) (size : Z) (p : BufferPool) :
  0 <= current_memory p < idx_modulus ->
  current_memory (Reservation_Resize tag size size p) = current_memory p.
Proof.
  intros H. cbn. rewrite Z.sub_diag. change (wrap 0) with 0.
  rewrite Z.add_0_r. apply wrap_small, H.
Qed.

Lemma TryDequeueWithoutConcurrentPurge_empty (fuel : nat) (p : BufferPool) :
  purge_active p = false -> queue p = [] ->
  TryDequeueWithoutConcurrentPurge (S fuel) p = Some (None, set_purge_active false p).
Proof.
  intros Hp Hq. unfold TryDequeueWithoutConcurrentPurge. cbn [spin_until_no_purge].
  rewrite Hp. unfold try_dequeue. cbn. rewrite Hq. reflexivity.
Qed.

(** With no purge active and one unit of fuel per queued hint, and one
    more, the eviction loop returns; what it returns is described. *)
Lemma EvictBlocks_loop_returns (tag : MemoryTag) (extra_memory memory_limit : Z)
    (buffer : bool) (fuel : nat) :
  forall w : World,
    purge_active (pool w) = false ->
    (length (queue (pool w)) < fuel)%nat ->
    0 <= current_memory (pool w) < idx_modulus ->
    exists r w',
      EvictBlocks_loop fuel tag extra_memory memory_limit buffer w = Returns r w' /\
      purge_active (pool w') = false /\
      maximum_memory (pool w') = maximum_memory (pool w) /\
      0 <= current_memory (pool w') < idx_modulus /\
      (length (queue (pool w')) <= length (queue (pool w)))%nat /\
      (buffer = false -> taken r = None) /\
      (success r = true ->
         reservation r = extra_memory /\
         (taken r = None -> current_memory (pool w') <= memory_limit)) /\
      (success r = false ->
         reservation r = 0 /\ taken r = None /\ queue (pool w') = []).
Proof.
  induction fuel as [|fuel IH]; intros w Hp Hfuel Hrange; [lia|].
  cbn [EvictBlocks_loop].
  destruct (Z.ltb_spec memory_limit (current_memory (pool w))) as [Hover|Hfit].
  2:{ eexists _, _. split; [reflexivity|]. cbn.
      repeat split; try lia; try congruence; try tauto. }
  destruct (queue (pool w)) as [|node q] eqn:Eq.
  - assert (Etd : try_dequeue (pool w) = (None, pool w)).
    { unfold try_dequeue. rewrite Eq. reflexivity. }
    rewrite Etd. rewrite (TryDequeueWithoutConcurrentPurge_empty _ _ Hp Eq).
    eexists _, _. split; [reflexivity|]. cbn.
    split; [reflexivity|]. split; [reflexivity|].
    split; [apply wrap_range|]. rewrite Eq. cbn.
    repeat split; try lia; try congruence; try tauto.
  - assert (Etd : try_dequeue (pool w) = (Some node, set_queue q (pool w))).
    { unfold try_dequeue. rewrite Eq. reflexivity. }
    rewrite Etd. cbn in Hfuel.
    set (p2 := set_evict_queue_insertions _ _).
    assert (Hdead : exists r w',
      EvictBlocks_loop fuel tag extra_memory memory_limit buffer
        (mkWorld (handles w) (dead_node_seen p2)) = Returns r w' /\
      purge_active (pool w') = false /\
      maximum_memory (pool w') = maximum_memory (pool w) /\
      0 <= current_memory (pool w') < idx_modulus /\
      (length (queue (pool w')) <= length (node :: q))%nat /\
      (buffer = false -> taken r = None) /\
      (success r = true ->
         reservation r = extra_memory /\
         (taken r = None -> current_memory (pool w') <= memory_limit)) /\
      (success r = false ->
         reservation r = 0 /\ taken r = None /\ queue (pool w') = [])).
    { destruct (IH (mkWorld (handles w) (dead_node_seen p2)))
        as (r & w' & Hrun & H1 & H2 & H3 & H4 & H5); [exact Hp | cbn; lia | exact Hrange |].
      exists r, w'. cbn in H4. cbn. repeat split; try tauto; try lia. }
    destruct (TryGetBlockHandle (handles w) node) as [[id h]|]; [|exact Hdead].
    destruct (CanUnload node h); cbn [negb]; [|exact Hdead].
    destruct (buffer && (alloc_size h =? extra_memory)) eqn:Efast.
    + eexists _, _. split; [reflexivity|]. cbn.
      split; [exact Hp|]. split; [reflexivity|]. split; [apply wrap_range|].
      apply andb_true_iff in Efast. destruct Efast as [-> _].
      repeat split; try lia; try congruence.
    + destruct (IH (Unload id h (mkWorld (handles w) p2)))
        as (r & w' & Hrun & H1 & H2 & H3 & H4 & H5);
        [exact Hp | cbn; lia | cbn; apply wrap_range |].
      exists r, w'. cbn in H4. cbn. repeat split; try tauto; try lia.
Qed.

Lemma EvictBlocks_loop_never_throws (tag : MemoryTag) (extra_memory memory_limit : Z)
    (buffer : bool) (fuel : nat) :
  forall (w : World) e w',
    EvictBlocks_loop fuel tag extra_memory memory_limit buffer w <> Throws e w'.
Proof.
  induction fuel as [|fuel IH]; intros w e w'; [discriminate|].
  cbn [EvictBlocks_loop].
  destruct (memory_limit <? current_memory (pool w)); [|discriminate].
  destruct (match try_dequeue (pool w) with
            | (Some node, p1) => Some (Some node, p1)
            | (None, p1) => TryDequeueWithoutConcurrentPurge (S fuel) p1
            end) as [[[node|] p1]|]; try discriminate.
  destruct (TryGetBlockHandle (handles w) node) as [[id h]|]; [|apply IH].
  destruct (negb (CanUnload node h)); [apply IH|].
  destruct (buffer && (alloc_size h =? extra_memory)); [discriminate|apply IH].
Qed.

Lemma EvictBlocks_returns (fuel : nat) (tag : MemoryTag) (extra_memory memory_limit : Z)
    (buffer : bool) (w : World) :
  purge_active (pool w) = false ->
  (length (queue (pool w)) < fuel)%nat ->
  exists r w',
    EvictBlocks fuel tag extra_memory memory_limit buffer w = Returns r w' /\
    purge_active (pool w') = false /\
    maximum_memory (pool w') = maximum_memory (pool w) /\
    0 <= current_memory (pool w') < idx_modulus /\
    (length (queue (pool w')) <= length (queue (pool w)))%nat /\
    (buffer = false -> taken r = None) /\
    (success r = true ->
       reservation r = extra_memory /\
       (taken r = None -> current_memory (pool w') <= memory_limit)) /\
    (success r = false ->
       reservation r = 0 /\ taken r = None /\ queue (pool w') = []).
Proof.
  intros Hp Hfuel. unfold EvictBlocks.
  apply (EvictBlocks_loop_returns tag extra_memory memory_limit buffer fuel
           (on_pool (Reservation_Resize tag 0 extra_memory) w)).
  - exact Hp.
  - exact Hfuel.
  - cbn. apply wrap_range.
Qed.

(** C3, as the code has it: with no purge active, [EvictBlocks]
    returns; when it reports success the returned reservation holds
    [extra_memory], and unless the call ended on the fast path that
    hands a buffer over, [current_memory <= memory_limit], hence
    [<= memory_limit + extra_memory].  A call without [buffer] never
    takes the fast path. *)
Theorem EvictBlocks_success_bound (fuel : nat) (tag : MemoryTag)
    (extra_memory memory_limit : Z) (buffer : bool) (w : World) :
  purge_active (pool w) = false ->
  (length (queue (pool w)) < fuel)%nat ->
  0 <= extra_memory ->
  exists r w',
    EvictBlocks fuel tag extra_memory memory_limit buffer w = Returns r w' /\
    (buffer = false -> taken r = None) /\
    (success r = true ->
       reservation r = extra_memory /\
       (taken r = None ->
          current_memory (pool w') <= memory_limit /\
          current_memory (pool w') <= memory_limit + extra_memory)).
Proof.
  intros Hp Hfuel Hextra.
  destruct (EvictBlocks_returns fuel tag extra_memory memory_limit buffer w Hp Hfuel)
    as (r & w' & Hrun & _ & _ & _ & _ & Hbuf & Hok & _).
  exists r, w'. split; [exact Hrun|]. split; [exact Hbuf|].
  intros Hs. destruct (Hok Hs) as [Hres Hcur]. split; [exact Hres|].
  intros Ht. specialize (Hcur Ht). lia.
Qed.

Lemma EvictBlocks_success_bound_witness :
  exists r w',
    EvictBlocks 2 0%nat 0 0 false (add_hints 1 0 world40) = Returns r w' /\
    (success r = true -> current_memory (pool w') <= 0).
Proof.
  destruct (EvictBlocks_success_bound 2 0%nat 0 0 false (add_hints 1 0 world40))
    as (r & w' & Hrun & Hbuf & Hok).
  - reflexivity.
  - vm_compute. lia.
  - lia.
  - exists r, w'. split; [exact Hrun|].
    intros Hs. destruct (Hok Hs) as [_ Hcur].
    destruct (Hcur (Hbuf eq_refl)) as [Hle _]. exact Hle.
Defined.

Lemma EvictBlocks_fast_path_over_limit :
  exists w',
    EvictBlocks 2 0%nat 40 0 true (add_hints 1 0 world100)
      = Returns (mkEvictionResult true 40 (Some 0%nat)) w' /\
    current_memory (pool w') = 100 /\
    ~ (current_memory (pool w') <= 0 + 40).
Proof.
  eexists. split; [reflexivity|]. split; [reflexivity|].
  intros H. vm_compute in H. apply H. reflexivity.
Qed.

(** ** SetLimit *)

Lemma drop_result_frame (tag : MemoryTag) (r : EvictionResult) (w : World) :
  purge_active (pool (drop_result tag r w)) = purge_active (pool w) /\
  maximum_memory (pool (drop_result tag r w)) = maximum_memory (pool w) /\
  queue (pool (drop_result tag r w)) = queue (pool w) /\
  handles (drop_result tag r w) = handles w.
Proof. repeat split. Qed.

Lemma drop_result_empty (tag : MemoryTag) (r : EvictionResult) (w : World) :
  reservation r = 0 ->
  0 <= current_memory (pool w) < idx_modulus ->
  current_memory (pool (drop_result tag r w)) = current_memory (pool w).
Proof.
  intros Hr Hrange. unfold drop_result, on_pool. cbn [pool]. rewrite Hr.
  apply Reservation_Resize_same, Hrange.
Qed.

Lemma SetLimit_evict_again_outcome (fuel : nat) (limit : Z) (postscript : string)
    (old_limit : Z) (w : World) :
  purge_active (pool w) = false ->
  (length (queue (pool w)) < fuel)%nat ->
  (exists w',
     SetLimit_evict_again fuel limit postscript old_limit w = Returns tt w' /\
     maximum_memory (pool w') = maximum_memory (pool w) /\
     current_memory (pool w') <= limit) \/
  (exists w',
     SetLimit_evict_again fuel limit postscript old_limit w
       = Throws (OutOfMemoryException limit_message limit postscript) w' /\
     maximum_memory (pool w') = old_limit).
Proof.
  intros Hp Hfuel. unfold SetLimit_evict_again.
  destruct (EvictBlocks_returns fuel EXTENSION 0 limit false w Hp Hfuel)
    as (r & w' & -> & Hp' & Hmax & Hrange & _ & Hbuf & Hok & Hfail).
  destruct (success r) eqn:Es; cbn [negb].
  - left. eexists. split; [reflexivity|].
    destruct (Hok eq_refl) as [Hres Hcur].
    split; [exact Hmax|].
    rewrite (drop_result_empty _ _ _ Hres Hrange). apply Hcur, Hbuf. reflexivity.
  - right. eexists. split; [reflexivity|]. reflexivity.
Qed.

(** C2: with no purge active, [SetLimit(limit, postscript)] either
    returns, and then [maximum_memory == limit] and
    [current_memory <= limit], or throws the [OutOfMemoryException]
    made of [limit] and [postscript], and then [maximum_memory] is what
    it was before the call.  The second half of the call, entered in
    any state with the old limit saved, leaves [maximum_memory] as it
    found it when it returns and stores the saved limit back when it
    throws. *)
Theorem SetLimit_outcome (fuel : nat) (limit : Z) (postscript : string) (w : World)
    (old_limit : Z) (w2 : World) :
  purge_active (pool w) = false ->
  (length (queue (pool w)) < fuel)%nat ->
  purge_active (pool w2) = false ->
  (length (queue (pool w2)) < fuel)%nat ->
  ((exists w',
      SetLimit fuel limit postscript w = Returns tt w' /\
      maximum_memory (pool w') = limit /\
      current_memory (pool w') <= limit) \/
   (exists w',
      SetLimit fuel limit postscript w
        = Throws (OutOfMemoryException limit_message limit postscript) w' /\
      maximum_memory (pool w') = maximum_memory (pool w))) /\
  ((exists w',
      SetLimit_evict_again fuel limit postscript old_limit w2 = Returns tt w' /\
      maximum_memory (pool w') = maximum_memory (pool w2) /\
      current_memory (pool w') <= limit) \/
   (exists w',
      SetLimit_evict_again fuel limit postscript old_limit w2
        = Throws (OutOfMemoryException limit_message limit postscript) w' /\
      maximum_memory (pool w') = old_limit)).
Proof.
  intros Hp Hfuel Hp2 Hfuel2.
  split; [|apply SetLimit_evict_again_outcome; assumption].
  unfold SetLimit.
  destruct (EvictBlocks_returns fuel EXTENSION 0 limit false w Hp Hfuel)
    as (r & w1 & -> & Hp1 & Hmax1 & Hrange1 & Hlen1 & _ & _ & _).
  destruct (success r) eqn:Es; cbn [negb].
  - set (w1' := on_pool (set_maximum_memory limit) (drop_result EXTENSION r w1)).
    destruct (SetLimit_evict_again_outcome fuel limit postscript
                (maximum_memory (pool (drop_result EXTENSION r w1))) w1')
      as [(w' & Hrun & Hmax & Hcur) | (w' & Hrun & Hmax)].
    + exact Hp1.
    + cbn. lia.
    + left. exists w'. split; [exact Hrun|]. split; [exact Hmax | exact Hcur].
    + right. exists w'. split; [exact Hrun|]. rewrite Hmax. exact Hmax1.
  - right. eexists. split; [reflexivity|]. exact Hmax1.
Qed.

Lemma SetLimit_outcome_witness :
  (exists w',
     SetLimit 1 10 " suffix" world40 = Returns tt w' /\
     maximum_memory (pool w') = 10 /\ current_memory (pool w') <= 10) \/
  (exists w',
     SetLimit 1 10 " suffix" world40
       = Throws (OutOfMemoryException limit_message 10 " suffix") w' /\
     maximum_memory (pool w') = 100).
Proof.
  refine (proj1 (SetLimit_outcome 1 10 " suffix" world40 100 world40 _ _ _ _)).
  - reflexivity.
  - cbn. lia.
  - reflexivity.
  - cbn. lia.
Defined.

(** ** The purge sweep *)

Lemma named_app (l k : list BufferEvictionNode) : named (l ++ k) = named l ++ named k.
Proof. unfold named. apply filter_app. Qed.

Lemma named_submseteq (l k : list BufferEvictionNode) : l ⊆+ k -> named l ⊆+ named k.
Proof.
  intros Hsub. apply submseteq_Permutation in Hsub. destruct Hsub as [k' Hk'].
  unfold named in *. rewrite Hk', filter_app. apply submseteq_inserts_r. reflexivity.
Qed.

Lemma PurgeIteration_named (purge_size : Z) (w : World) :
  named (queue (pool (PurgeIteration purge_size w))) ⊆+ named (queue (pool w)).
Proof.
  rewrite PurgeIteration_queue, named_app.
  rewrite <- (take_drop (Z.to_nat purge_size) (queue (pool w))) at 3.
  rewrite named_app, (Permutation_app_comm (named (take _ _))).
  apply submseteq_skips_l, sublist_submseteq, named_compacted.
Qed.

Lemma PurgeIteration_length (purge_size : Z) (w : World) :
  (length (queue (pool (PurgeIteration purge_size w))) <= length (queue (pool w)))%nat.
Proof.
  rewrite PurgeIteration_queue, length_app, compacted_length.
  rewrite <- (take_drop (Z.to_nat purge_size) (queue (pool w))) at 3.
  rewrite length_app.
  pose proof (length_filter (alive (handles w))
                (take (Z.to_nat purge_size) (queue (pool w)))).
  lia.
Qed.

(** One turn of the sweep loop: it ends the call after one more
    iteration, or goes on with [max_purges] one smaller. *)
Lemma PurgeQueue_loop_step (fuel : nat) (purge_size max_purges : Z) (iterations : nat)
    (w : World) :
  0 < max_purges < idx_modulus ->
  PurgeQueue_loop (S fuel) purge_size max_purges iterations w
    = Returns (S iterations) (purge_done (PurgeIteration purge_size w)) \/
  PurgeQueue_loop (S fuel) purge_size max_purges iterations w
    = PurgeQueue_loop fuel purge_size (max_purges - 1) (S iterations)
        (PurgeIteration purge_size w).
Proof.
  intros Hm. cbn [PurgeQueue_loop].
  destruct (Z.eqb_spec max_purges 0) as [E|_]; [lia|].
  destruct (_ <? wrap (purge_size * EARLY_OUT_MULTIPLIER)); [left; reflexivity|].
  match goal with |- context [if ?c then _ else _] => destruct c end;
    [left; reflexivity|].
  right. rewrite wrap_small by lia. reflexivity.
Qed.

Lemma PurgeQueue_loop_returns (purge_size : Z) (fuel : nat) :
  forall (max_purges : Z) (iterations : nat) (w : World),
    0 <= max_purges < idx_modulus ->
    (Z.to_nat max_purges <= fuel)%nat ->
    exists n w',
      PurgeQueue_loop fuel purge_size max_purges iterations w = Returns n w' /\
      (iterations <= n <= iterations + Z.to_nat max_purges)%nat.
Proof.
  induction fuel as [|fuel IH]; intros m it w Hm Hfuel.
  - assert (m = 0) as -> by lia. cbn. eexists _, _. split; [reflexivity|lia].
  - destruct (Z.eq_dec m 0) as [->|Hne].
    + cbn. eexists _, _. split; [reflexivity|lia].
    + destruct (PurgeQueue_loop_step fuel purge_size m it w) as [-> | ->]; [lia | |].
      * eexists _, _. split; [reflexivity|lia].
      * destruct (IH (m - 1) (S it) (PurgeIteration purge_size w)) as (n & w' & Hrun & Hn);
          [lia | lia |].
        exists n, w'. split; [exact Hrun|lia].
Qed.

(** C5: [PurgeQueue] ends within a number of steps fixed when its
    sweep loop is entered.  With [max_purges = size_approx / purge_size]
    units of fuel the call returns after at most [max_purges] calls of
    [PurgeIteration], or, the purge size being zero, stops at the
    division; every turn of the loop that does not leave the call
    continues with [max_purges] one smaller. *)
Theorem PurgeQueue_bounded (fuel : nat) (w : World)
    (purge_size max_purges : Z) (iterations : nat) (w0 : World) :
  size_approx (pool w) < idx_modulus ->
  (Z.to_nat (size_approx (pool w) / purge_size_of (pool w)) <= fuel)%nat ->
  0 < max_purges < idx_modulus ->
  ((exists n w',
      PurgeQueue fuel w = Returns n w' /\
      Z.of_nat n <= size_approx (pool w) / purge_size_of (pool w)) \/
   (purge_size_of (pool w) = 0 /\
    exists w', PurgeQueue fuel w = Throws DivisionByZero w')) /\
  (PurgeQueue_loop (S fuel) purge_size max_purges iterations w0
     = Returns (S iterations) (purge_done (PurgeIteration purge_size w0)) \/
   PurgeQueue_loop (S fuel) purge_size max_purges iterations w0
     = PurgeQueue_loop fuel purge_size (max_purges - 1) (S iterations)
         (PurgeIteration purge_size w0)).
Proof.
  intros Hsize Hfuel Hm.
  split; [|apply PurgeQueue_loop_step; exact Hm].
  assert (Hq : 0 <= size_approx (pool w)) by (unfold size_approx; lia).
  assert (Hps : 0 <= purge_size_of (pool w) < idx_modulus) by apply wrap_range.
  assert (Hdiv : 0 <= size_approx (pool w) / purge_size_of (pool w)).
  { destruct (Z.eq_dec (purge_size_of (pool w)) 0) as [->|Hne].
    - rewrite Z.div_0_r. lia.
    - apply Z.div_pos; lia. }
  unfold PurgeQueue.
  destruct (purge_active (pool w)) eqn:Ep.
  { left. eexists _, _. split; [reflexivity|]. cbn. lia. }
  change (purge_size_of (set_purge_active true (pool w))) with (purge_size_of (pool w)).
  change (size_approx (set_evict_queue_insertions _ (set_purge_active true (pool w))))
    with (size_approx (pool w)).
  destruct (_ <? wrap (purge_size_of (pool w) * EARLY_OUT_MULTIPLIER)).
  { left. eexists _, _. split; [reflexivity|]. cbn. lia. }
  destruct (Z.eqb_spec (purge_size_of (pool w)) 0) as [E|Hne].
  { right. split; [exact E|]. eexists. reflexivity. }
  left.
  match goal with
  | |- context [PurgeQueue_loop fuel ?ps ?m 0 ?w2] =>
      destruct (PurgeQueue_loop_returns ps fuel m 0%nat w2) as (n & w' & Hrun & Hn)
  end.
  - split; [exact Hdiv|].
    apply Z.le_lt_trans with (size_approx (pool w)); [|exact Hsize].
    apply Z.div_le_upper_bound; nia.
  - exact Hfuel.
  - exists n, w'. split; [exact Hrun|]. lia.
Qed.

Lemma PurgeQueue_bounded_witness :
  (exists n w',
     PurgeQueue 4 sweep_world = Returns n w' /\
     Z.of_nat n <= size_approx (pool sweep_world) / purge_size_of (pool sweep_world)) \/
  (purge_size_of (pool sweep_world) = 0 /\
   exists w', PurgeQueue 4 sweep_world = Throws DivisionByZero w').
Proof.
  refine (proj1 (PurgeQueue_bounded 4 sweep_world 2 4 0 sweep_world _ _ _)).
  - reflexivity.
  - vm_compute. lia.
  - unfold idx_modulus. lia.
Defined.

Lemma purges_only_refl (w : World) : purges_only w w.
Proof. repeat split; reflexivity. Qed.

Lemma purges_only_trans (w1 w2 w3 : World) :
  purges_only w1 w2 -> purges_only w2 w3 -> purges_only w1 w3.
Proof.
  intros (Hh & Hc & Hm & Hu & Hl & Hq) (Hh' & Hc' & Hm' & Hu' & Hl' & Hq').
  repeat split; try congruence.
  - lia.
  - etransitivity; eassumption.
Qed.

Lemma PurgeIteration_purges_only (purge_size : Z) (w : World) :
  purges_only w (PurgeIteration purge_size w).
Proof.
  destruct (PurgeIteration_frame purge_size w) as (Hh & Hc & Hm & Hu & _).
  repeat split; try assumption.
  - apply PurgeIteration_length.
  - apply PurgeIteration_named.
Qed.

Lemma purge_done_purges_only (w : World) : purges_only w (purge_done w).
Proof. repeat split; reflexivity. Qed.

Lemma PurgeQueue_loop_purges_only (purge_size : Z) (fuel : nat) :
  forall (max_purges : Z) (iterations : nat) (w : World) n w',
    PurgeQueue_loop fuel purge_size max_purges iterations w = Returns n w' ->
    purges_only w w' /\
    purge_active (pool w') = false /\
    evict_queue_insertions (pool w') = evict_queue_insertions (pool w).
Proof.
  assert (Hdone : forall w, purges_only w (purge_done (PurgeIteration purge_size w)) /\
            purge_active (pool (purge_done (PurgeIteration purge_size w))) = false /\
            evict_queue_insertions (pool (purge_done (PurgeIteration purge_size w)))
              = evict_queue_insertions (pool w)).
  { intros w. split; [|split; [reflexivity|]].
    - eapply purges_only_trans; [apply PurgeIteration_purges_only|apply purge_done_purges_only].
    - cbn. apply PurgeIteration_frame. }
  induction fuel as [|fuel IH]; intros m it w n w' Hrun.
  - cbn in Hrun. destruct (m =? 0); [|discriminate].
    injection Hrun as <- <-. split; [apply purge_done_purges_only|]. split; reflexivity.
  - cbn [PurgeQueue_loop] in Hrun. destruct (m =? 0).
    { injection Hrun as <- <-. split; [apply purge_done_purges_only|]. split; reflexivity. }
    destruct (_ <? wrap (purge_size * EARLY_OUT_MULTIPLIER)).
    { injection Hrun as <- <-. apply Hdone. }
    match type of Hrun with context [if ?c then _ else _] => destruct c end.
    { injection Hrun as <- <-. apply Hdone. }
    apply IH in Hrun. destruct Hrun as (Hp & Ha & He).
    split; [|split; [exact Ha|]].
    + eapply purges_only_trans; [apply PurgeIteration_purges_only|exact Hp].
    + rewrite He. apply PurgeIteration_frame.
Qed.

Lemma PurgeQueue_purges_only (fuel : nat) (w : World) n w' :
  PurgeQueue fuel w = Returns n w' ->
  purges_only w w' /\
  purge_active (pool w') = purge_active (pool w) /\
  (purge_active (pool w) = false ->
   evict_queue_insertions (pool w')
     = wrap (evict_queue_insertions (pool w) - INSERT_INTERVAL)).
Proof.
  unfold PurgeQueue. intros Hrun.
  destruct (purge_active (pool w)) eqn:Ep.
  { injection Hrun as <- <-. split; [apply purges_only_refl|].
    split; [exact Ep|discriminate]. }
  destruct (_ <? wrap (_ * EARLY_OUT_MULTIPLIER)).
  { injection Hrun as <- <-. split; [repeat split; reflexivity|]. split; reflexivity. }
  destruct (_ =? 0); [discriminate|].
  apply PurgeQueue_loop_purges_only in Hrun. destruct Hrun as (Hp & Ha & He).
  split; [|split; [exact Ha|intros _; exact He]].
  destruct Hp as (H1 & H2 & H3 & H4 & H5 & H6). repeat split; assumption.
Qed.

(** C7, as the code has it: a second call of [PurgeQueue] right after
    a first leaves the handles, the memory counters, the limit and the
    purge flag as the first call left them, does not lengthen the
    queue and adds no hint that names a handle; each call that finds
    no purge active subtracts [INSERT_INTERVAL] from
    [evict_queue_insertions], so the two calls do not leave the pool as
    one call does. *)
Theorem PurgeQueue_twice (fuel1 fuel2 : nat) (w w1 w2 : World) (n1 n2 : nat) :
  PurgeQueue fuel1 w = Returns n1 w1 ->
  PurgeQueue fuel2 w1 = Returns n2 w2 ->
  purge_equivalent w2 w1 /\
  purges_only w1 w2 /\
  (purge_active (pool w) = false ->
   evict_queue_insertions (pool w1)
     = wrap (evict_queue_insertions (pool w) - INSERT_INTERVAL) /\
   evict_queue_insertions (pool w2)
     = wrap (evict_queue_insertions (pool w1) - INSERT_INTERVAL)).
Proof.
  intros H1 H2.
  apply PurgeQueue_purges_only in H1. destruct H1 as (_ & Ha1 & He1).
  apply PurgeQueue_purges_only in H2. destruct H2 as (Hp2 & Ha2 & He2).
  split; [|split; [exact Hp2|]].
  - destruct Hp2 as (Hh & Hc & Hm & Hu & _ & _).
    unfold purge_equivalent. repeat split; assumption.
  - intros Hp. split; [apply He1, Hp|]. apply He2. rewrite Ha1. exact Hp.
Qed.

Lemma PurgeQueue_twice_witness :
  exists n1 w1 n2 w2,
    PurgeQueue 4 twice_world = Returns n1 w1 /\
    PurgeQueue 4 w1 = Returns n2 w2 /\
    purge_equivalent w2 w1 /\
    purges_only w1 w2 /\
    evict_queue_insertions (pool w1) = 1 /\
    evict_queue_insertions (pool w2) = wrap (1 - INSERT_INTERVAL).
Proof.
  destruct (PurgeQueue 4 twice_world) as [n1 w1|e1 w1|] eqn:E1.
  - destruct (PurgeQueue 4 w1) as [n2 w2|e2 w2|] eqn:E2.
    + destruct (PurgeQueue_twice 4 4 twice_world w1 w2 n1 n2 E1 E2) as (Heq & Hp & Hins).
      destruct (Hins eq_refl) as [Hi1 Hi2].
      assert (Hone : evict_queue_insertions (pool w1) = 1) by exact Hi1.
      exists n1, w1, n2, w2. split; [reflexivity|]. split; [exact E2|].
      split; [exact Heq|]. split; [exact Hp|]. split; [exact Hone|].
      rewrite Hi2, Hone. reflexivity.
    + exfalso. vm_compute in E1. injection E1 as <- <-. vm_compute in E2. discriminate.
    + exfalso. vm_compute in E1. injection E1 as <- <-. vm_compute in E2. discriminate.
  - exfalso. vm_compute in E1. discriminate.
  - exfalso. vm_compute in E1. discriminate.
Defined.

Lemma PurgeQueue_not_idempotent :
  (exists w1 w2,
     PurgeQueue 0 (add_hints 1 0 world40) = Returns 0%nat w1 /\
     PurgeQueue 0 w1 = Returns 0%nat w2 /\
     evict_queue_insertions (pool w1) <> evict_queue_insertions (pool w2)) /\
  (exists w1 w2,
     PurgeQueue 0 (add_hints 1024 0 world40) = Returns 0%nat w1 /\
     PurgeQueue 0 w1 = Throws DivisionByZero w2).
Proof.
  split.
  - eexists _, _. split; [reflexivity|]. split; [reflexivity|].
    vm_compute. discriminate.
  - eexists _, _. split; [vm_compute; reflexivity|]. vm_compute. reflexivity.
Qed.

(** ** Hint liveness *)

Lemma heap_evolves_refl (hp : Heap) : heap_evolves hp hp.
Proof.
  split; [lia|]. intros id h' H. rewrite H. reflexivity.
Qed.

Lemma heap_evolves_trans (hp1 hp2 hp3 : Heap) :
  heap_evolves hp1 hp2 -> heap_evolves hp2 hp3 -> heap_evolves hp1 hp3.
Proof.
  intros [Hl12 H12] [Hl23 H23]. split; [lia|].
  intros id h3 H3. specialize (H23 id h3 H3).
  destruct (hp2 !! id) as [[h2|]|] eqn:E2.
  - specialize (H12 id h2 E2).
    destruct (hp1 !! id) as [[h1|]|]; [congruence | exact H12 | congruence].
  - contradiction.
  - assert (E1 : hp1 !! id = None).
    { apply lookup_ge_None. apply lookup_ge_None in E2. lia. }
    rewrite E1. exact H23.
Qed.

Lemma heap_evolves_unload (hp : Heap) (id : nat) (h : BlockHandle) :
  hp !! id = Some (Some h) -> heap_evolves hp (<[id := Some (unloaded h)]> hp).
Proof.
  intros Hh. split; [rewrite length_insert; lia|].
  intros id' h' H'.
  destruct (decide (id = id')) as [<-|Hne].
  - rewrite list_lookup_insert_eq in H' by (eapply lookup_lt_Some; exact Hh).
    rewrite Hh. injection H' as <-. reflexivity.
  - rewrite list_lookup_insert_ne in H' by exact Hne. rewrite H'. reflexivity.
Qed.

Lemma queue_shrinks_refl (w : World) : queue_shrinks w w.
Proof. split; [apply heap_evolves_refl | reflexivity]. Qed.

Lemma queue_shrinks_trans (w1 w2 w3 : World) :
  queue_shrinks w1 w2 -> queue_shrinks w2 w3 -> queue_shrinks w1 w3.
Proof.
  intros [Hh Hq] [Hh' Hq']. split.
  - eapply heap_evolves_trans; eassumption.
  - etransitivity; eassumption.
Qed.

Lemma TryGetBlockHandle_lookup (hp : Heap) (node : BufferEvictionNode) id h :
  TryGetBlockHandle hp node = Some (id, h) -> hp !! id = Some (Some h).
Proof.
  unfold TryGetBlockHandle, weak_lock.
  destruct (handle node) as [id'|]; [|discriminate].
  destruct (hp !! id') as [[h'|]|] eqn:E; try discriminate.
  destruct (negb (CanUnload node h')); [discriminate|].
  intros [= <- <-]. exact E.
Qed.

Lemma spin_until_no_purge_Some (fuel : nat) (p p1 : BufferPool) :
  spin_until_no_purge fuel p = Some p1 -> p1 = set_purge_active true p.
Proof.
  induction fuel as [|fuel IH]; [discriminate|].
  cbn. destruct (purge_active p); [exact IH|]. intros [= <-]. reflexivity.
Qed.

Lemma dequeue_Some (fuel : nat) (p p1 : BufferPool) (node : BufferEvictionNode) :
  match try_dequeue p with
  | (Some node, p1) => Some (Some node, p1)
  | (None, p1) => TryDequeueWithoutConcurrentPurge fuel p1
  end = Some (Some node, p1) ->
  queue p = node :: queue p1.
Proof.
  unfold try_dequeue. destruct (queue p) as [|x q] eqn:Eq.
  - unfold TryDequeueWithoutConcurrentPurge.
    destruct (spin_until_no_purge fuel p) as [p'|] eqn:Es; [|discriminate].
    apply spin_until_no_purge_Some in Es. subst p'.
    unfold try_dequeue. cbn. rewrite Eq. discriminate.
  - intros [= <- <-]. reflexivity.
Qed.

Lemma dequeue_None (fuel : nat) (p p1 : BufferPool) :
  match try_dequeue p with
  | (Some node, p1) => Some (Some node, p1)
  | (None, p1) => TryDequeueWithoutConcurrentPurge fuel p1
  end = Some (None, p1) ->
  queue p1 = queue p.
Proof.
  unfold try_dequeue. destruct (queue p) as [|x q] eqn:Eq; [|discriminate].
  unfold TryDequeueWithoutConcurrentPurge.
  destruct (spin_until_no_purge fuel p) as [p'|] eqn:Es; [|discriminate].
  apply spin_until_no_purge_Some in Es. subst p'.
  unfold try_dequeue. cbn. rewrite Eq. intros [= <-]. cbn. exact Eq.
Qed.

Lemma EvictBlocks_loop_shrinks (tag : MemoryTag) (extra_memory memory_limit : Z)
    (buffer : bool) (fuel : nat) :
  forall (w : World) r w',
    EvictBlocks_loop fuel tag extra_memory memory_limit buffer w = Returns r w' ->
    queue_shrinks w w'.
Proof.
  induction fuel as [|fuel IH]; intros w r w' Hrun; [discriminate|].
  cbn [EvictBlocks_loop] in Hrun.
  destruct (memory_limit <? current_memory (pool w)).
  2:{ injection Hrun as _ <-. apply queue_shrinks_refl. }
  destruct (match try_dequeue (pool w) with
            | (Some node, p1) => Some (Some node, p1)
            | (None, p1) => TryDequeueWithoutConcurrentPurge (S fuel) p1
            end) as [[[node|] p1]|] eqn:Ed; [| |discriminate].
  2:{ apply dequeue_None in Ed. injection Hrun as _ <-.
      split; [apply heap_evolves_refl|]. cbn. rewrite Ed. reflexivity. }
  apply dequeue_Some in Ed.
  assert (Hdead : forall r w',
    EvictBlocks_loop fuel tag extra_memory memory_limit buffer
      (mkWorld (handles w)
         (dead_node_seen
            (set_evict_queue_insertions (wrap (evict_queue_insertions p1 - 1)) p1)))
      = Returns r w' -> queue_shrinks w w').
  { intros r0 w0 H0. apply IH in H0. eapply queue_shrinks_trans; [|exact H0].
    split; [apply heap_evolves_refl|]. cbn. rewrite Ed. apply submseteq_cons. reflexivity. }
  destruct (TryGetBlockHandle (handles w) node) as [[id h]|] eqn:Eg; [|eapply Hdead, Hrun].
  apply TryGetBlockHandle_lookup in Eg.
  destruct (negb (CanUnload node h)); [eapply Hdead, Hrun|].
  assert (Hunload : queue_shrinks w
            (Unload id h (mkWorld (handles w)
               (set_evict_queue_insertions (wrap (evict_queue_insertions p1 - 1)) p1)))).
  { split; [apply heap_evolves_unload, Eg|]. cbn. rewrite Ed.
    apply submseteq_cons. reflexivity. }
  destruct (buffer && (alloc_size h =? extra_memory)).
  - injection Hrun as _ <-. exact Hunload.
  - apply IH in Hrun. eapply queue_shrinks_trans; eassumption.
Qed.

Lemma EvictBlocks_shrinks (fuel : nat) (tag : MemoryTag) (extra_memory memory_limit : Z)
    (buffer : bool) (w : World) r w' :
  EvictBlocks fuel tag extra_memory memory_limit buffer w = Returns r w' ->
  queue_shrinks w w'.
Proof.
  unfold EvictBlocks. intros Hrun. apply EvictBlocks_loop_shrinks in Hrun. exact Hrun.
Qed.

Lemma SetLimit_evict_again_shrinks (fuel : nat) (limit : Z) (postscript : string)
    (old_limit : Z) (w : World) :
  match SetLimit_evict_again fuel limit postscript old_limit w with
  | Returns _ w' | Throws _ w' => queue_shrinks w w'
  | Diverges => True
  end.
Proof.
  unfold SetLimit_evict_again.
  destruct (EvictBlocks fuel EXTENSION 0 limit false w) as [r w3|e w3|] eqn:Ev.
  - apply EvictBlocks_shrinks in Ev. destruct (negb (success r)); exact Ev.
  - exfalso. eapply EvictBlocks_loop_never_throws. exact Ev.
  - exact I.
Qed.

Lemma SetLimit_shrinks (fuel : nat) (limit : Z) (postscript : string) (w : World) :
  match SetLimit fuel limit postscript w with
  | Returns _ w' | Throws _ w' => queue_shrinks w w'
  | Diverges => True
  end.
Proof.
  unfold SetLimit.
  destruct (EvictBlocks fuel EXTENSION 0 limit false w) as [r w1|e w1|] eqn:Ev.
  - apply EvictBlocks_shrinks in Ev. destruct (negb (success r)); [exact Ev|].
    match goal with
    | |- match SetLimit_evict_again ?f ?l ?s ?o ?w2 with _ => _ end =>
        pose proof (SetLimit_evict_again_shrinks f l s o w2) as H2;
        destruct (SetLimit_evict_again f l s o w2); try exact I;
        (eapply queue_shrinks_trans; [exact Ev | exact H2])
    end.
  - exfalso. eapply EvictBlocks_loop_never_throws. exact Ev.
  - exact I.
Qed.

Lemma NoDup_submseteq_inv (l k : list BufferEvictionNode) : l ⊆+ k -> NoDup k -> NoDup l.
Proof.
  intros Hsub Hk. apply submseteq_Permutation in Hsub. destruct Hsub as [k' Hk'].
  rewrite Hk' in Hk. apply NoDup_app in Hk. apply Hk.
Qed.

Lemma elem_of_named (node : BufferEvictionNode) (l : list BufferEvictionNode) :
  node ∈ named l <-> is_Some (handle node) /\ node ∈ l.
Proof. unfold named. rewrite list_elem_of_filter. reflexivity. Qed.

(** Losing hints that name a handle and letting the handles evolve
    keeps the invariant. *)
Lemma queue_invariant_hints_shrink (w w' : World) :
  queue_invariant w -> hints_shrink w w' -> queue_invariant w'.
Proof.
  intros [Hnd Hnamed Hpast Hnn] [[Hlen Hev] Hsub].
  assert (Hin : forall node id, node ∈ queue (pool w') -> handle node = Some id ->
                node ∈ queue (pool w)).
  { intros node id H Hid.
    assert (Hn : node ∈ named (queue (pool w'))).
    { apply elem_of_named. split; [rewrite Hid; eauto | exact H]. }
    eapply elem_of_submseteq in Hn; [|exact Hsub].
    apply elem_of_named in Hn. apply Hn. }
  constructor.
  - eapply NoDup_submseteq_inv; eassumption.
  - intros node id H Hid. specialize (Hnamed node id (Hin node id H Hid) Hid). lia.
  - intros node id h' H Hid Hh'.
    specialize (Hev id h' Hh').
    pose proof (Hnamed node id (Hin node id H Hid) Hid) as Hlt.
    destruct (handles w !! id) as [[h|]|] eqn:E.
    + rewrite Hev. eapply Hpast; [eapply Hin; eassumption | exact Hid | exact E].
    + contradiction.
    + apply lookup_ge_None in E. lia.
  - intros id h' Hh'. specialize (Hev id h' Hh').
    destruct (handles w !! id) as [[h|]|] eqn:E.
    + rewrite Hev. eapply Hnn. exact E.
    + contradiction.
    + lia.
Qed.

Lemma queue_invariant_shrinks (w w' : World) :
  queue_invariant w -> queue_shrinks w w' -> queue_invariant w'.
Proof.
  intros Hinv [Hev Hsub]. eapply queue_invariant_hints_shrink; [exact Hinv|].
  split; [exact Hev | apply named_submseteq, Hsub].
Qed.

Lemma purges_only_shrinks (w w' : World) : purges_only w w' -> hints_shrink w w'.
Proof.
  intros (Hh & _ & _ & _ & _ & Hq). split; [|exact Hq].
  rewrite Hh. apply heap_evolves_refl.
Qed.

(** Adding a hint keeps the invariant as long as the timestamp does
    not wrap. *)
Lemma queue_invariant_add (id : nat) (h : BlockHandle) (w w' : World) (b : bool) :
  queue_invariant w ->
  handles w !! id = Some (Some h) ->
  eviction_timestamp h + 1 < idx_modulus ->
  AddToEvictionQueue id w = Some (b, w') ->
  queue_invariant w'.
Proof.
  intros [Hnd Hnamed Hpast Hnn] Hh Hwrap Hadd.
  destruct (AddToEvictionQueue_run id h w Hh) as (b' & w'' & Hrun & Hhp & _ & Hq & _).
  rewrite Hadd in Hrun. injection Hrun as <- <-.
  assert (Hts : wrap (eviction_timestamp h + 1) = eviction_timestamp h + 1).
  { apply wrap_small. specialize (Hnn id h Hh). lia. }
  rewrite Hts in Hhp, Hq.
  assert (Hlt : (id < length (handles w))%nat) by (eapply lookup_lt_Some; exact Hh).
  constructor.
  - rewrite Hq, named_app. apply NoDup_app. split; [exact Hnd|].
    split; [|unfold named; rewrite filter_cons_True by (cbn; eauto); apply NoDup_singleton].
    intros node Hin Hnew. apply elem_of_named in Hin. destruct Hin as [_ Hin].
    apply elem_of_named in Hnew. destruct Hnew as [_ Hnew].
    apply list_elem_of_singleton in Hnew. subst node.
    specialize (Hpast _ id h Hin eq_refl Hh). cbn in Hpast. lia.
  - intros node id' Hin Hid. rewrite Hq in Hin. rewrite Hhp, length_insert.
    apply elem_of_app in Hin. destruct Hin as [Hin|Hin].
    + eapply Hnamed; eassumption.
    + apply list_elem_of_singleton in Hin. subst node. cbn in Hid.
      injection Hid as <-. exact Hlt.
  - intros node id' h' Hin Hid Hh'. rewrite Hq in Hin. rewrite Hhp in Hh'.
    apply elem_of_app in Hin.
    destruct (decide (id = id')) as [<-|Hne].
    + rewrite list_lookup_insert_eq in Hh' by exact Hlt. injection Hh' as <-. cbn.
      destruct Hin as [Hin|Hin].
      * specialize (Hpast _ id h Hin Hid Hh). lia.
      * apply list_elem_of_singleton in Hin. subst node. cbn. lia.
    + rewrite list_lookup_insert_ne in Hh' by exact Hne.
      destruct Hin as [Hin|Hin].
      * eapply Hpast; eassumption.
      * apply list_elem_of_singleton in Hin. subst node. cbn in Hid. congruence.
  - intros id' h' Hh'. rewrite Hhp in Hh'.
    destruct (decide (id = id')) as [<-|Hne].
    + rewrite list_lookup_insert_eq in Hh' by exact Hlt. injection Hh' as <-. cbn.
      specialize (Hnn id h Hh). lia.
    + rewrite list_lookup_insert_ne in Hh' by exact Hne. eapply Hnn. exact Hh'.
Qed.

Lemma reachable_queue_invariant (w : World) : reachable w -> queue_invariant w.
Proof.
  induction 1 as [m | w hp' Hr IH Hev | w tag size Hr IH | w id h b w' Hr IH Hh Hrd Hwrap Hadd
                  | w fuel tag extra limit buffer r w' Hr IH Hrun | w fuel n w' Hr IH Hrun
                  | w fuel limit postscript w' Hr IH Hrun
                  | w fuel limit postscript e w' Hr IH Hrun].
  - constructor; cbn.
    + apply NoDup_nil_2.
    + intros node id Hin. apply elem_of_nil in Hin. contradiction.
    + intros node id h Hin. apply elem_of_nil in Hin. contradiction.
    + intros id h Hh. rewrite lookup_nil in Hh. discriminate.
  - eapply queue_invariant_shrinks; [exact IH|]. split; [exact Hev|reflexivity].
  - eapply queue_invariant_shrinks; [exact IH|].
    split; [apply heap_evolves_refl|reflexivity].
  - eapply queue_invariant_add; eassumption.
  - eapply queue_invariant_shrinks; [exact IH|]. eapply EvictBlocks_shrinks, Hrun.
  - eapply queue_invariant_hints_shrink; [exact IH|].
    apply purges_only_shrinks. eapply PurgeQueue_purges_only, Hrun.
  - eapply queue_invariant_shrinks; [exact IH|].
    pose proof (SetLimit_shrinks fuel limit postscript w) as Hs. rewrite Hrun in Hs. exact Hs.
  - eapply queue_invariant_shrinks; [exact IH|].
    pose proof (SetLimit_shrinks fuel limit postscript w) as Hs. rewrite Hrun in Hs. exact Hs.
Qed.

Lemma filter_current_named (hp : Heap) (id : nat) (l : list BufferEvictionNode) :
  filter (current_hint hp id) (named l) = filter (current_hint hp id) l.
Proof.
  unfold named. induction l as [|x l IH]; [reflexivity|].
  destruct (decide (is_Some (handle x))) as [Hn|Hn].
  - rewrite (filter_cons_True _ x l Hn).
    destruct (decide (current_hint hp id x)) as [Hc|Hc].
    + rewrite !(filter_cons_True (current_hint hp id)) by exact Hc. f_equal. exact IH.
    + rewrite !(filter_cons_False (current_hint hp id)) by exact Hc. exact IH.
  - rewrite (filter_cons_False _ x l Hn).
    rewrite (filter_cons_False (current_hint hp id) x l); [exact IH|].
    intros [Hid _]. apply Hn. rewrite Hid. eauto.
Qed.

Lemma NoDup_all_equal (x : BufferEvictionNode) (l : list BufferEvictionNode) :
  NoDup l -> (forall y, y ∈ l -> y = x) -> (length l <= 1)%nat.
Proof.
  intros Hnd Hall. destruct l as [|a [|b l]]; cbn; [lia | lia |].
  exfalso. apply NoDup_cons in Hnd. destruct Hnd as [Hnotin _]. apply Hnotin.
  rewrite (Hall a) by (apply list_elem_of_here).
  rewrite <- (Hall b) by (apply list_elem_of_further, list_elem_of_here).
  apply list_elem_of_here.
Qed.

Lemma queue_invariant_hint_liveness (w : World) : queue_invariant w -> hint_liveness w.
Proof.
  intros [Hnd _ _ _] id. rewrite <- filter_current_named.
  destruct (handles w !! id) as [[h|]|] eqn:E.
  - apply (NoDup_all_equal (mkNode (Some id) (eviction_timestamp h))).
    + apply NoDup_filter, Hnd.
    + intros [wp ts] Hin. apply list_elem_of_filter in Hin.
      destruct Hin as [[Hid (h' & Hh' & Hts)] _]. cbn in Hid, Hts.
      rewrite E in Hh'. injection Hh' as <-. subst. reflexivity.
  - apply (NoDup_all_equal default_node); [apply NoDup_filter, Hnd|].
    intros node Hin. apply list_elem_of_filter in Hin.
    destruct Hin as [[_ (h' & Hh' & _)] _]. congruence.
  - apply (NoDup_all_equal default_node); [apply NoDup_filter, Hnd|].
    intros node Hin. apply list_elem_of_filter in Hin.
    destruct Hin as [[_ (h' & Hh' & _)] _]. congruence.
Qed.

(** C6: in every reachable state, for every handle at most one hint of
    the queue carries the handle's current eviction timestamp; the
    steps of [reachable] are those of the surrounding code and the
    calls of [AddToEvictionQueue], [EvictBlocks], [PurgeQueue] and
    [SetLimit], so each of them keeps the property. *)
Theorem reachable_hint_liveness (w : World) : reachable w -> hint_liveness w.
Proof.
  intros Hr. apply queue_invariant_hint_liveness, reachable_queue_invariant, Hr.
Qed.

Lemma reachable_hint_liveness_witness : hint_liveness (add_hints 2 0 world40).
Proof.
  apply reachable_hint_liveness.
  eapply reach_add with (id := 0%nat) (w := add_hints 1 0 world40);
    [ | reflexivity | reflexivity | vm_compute; reflexivity | reflexivity ].
  eapply reach_add with (id := 0%nat) (w := world40);
    [ | reflexivity | reflexivity | vm_compute; reflexivity | reflexivity ].
  change world40 with
    (on_pool (IncreaseUsedMemory 0%nat 40)
       (set_handles [Some block40] (mkWorld [] (BufferPool_new 100)))).
  apply reach_increase, reach_env; [apply reach_new|].
  split; [cbn; lia|].
  intros [|id] h' H; cbn in H; [|discriminate].
  injection H as <-. reflexivity.
Defined.

(** * Further properties of the pool *)

(** ** Memory accounting *)

Lemma wrap_add_l (a b : Z) : wrap (wrap a + b) = wrap (a + b).
Proof. unfold wrap. apply Zplus_mod_idemp_l. Qed.

Lemma wrap_add_r (a b : Z) : wrap (a + wrap b) = wrap (a + b).
Proof. unfold wrap. apply Zplus_mod_idemp_r. Qed.

Lemma wrap_sub_l (a b : Z) : wrap (wrap a - b) = wrap (a - b).
Proof. unfold wrap. apply Zminus_mod_idemp_l. Qed.

Lemma wrap_sub_r (a b : Z) : wrap (a - wrap b) = wrap (a - b).
Proof. unfold wrap. apply Zminus_mod_idemp_r. Qed.

Lemma sum_alter (f : Z -> Z) (i : nat) (l : list Z) (x : Z) :
  l !! i = Some x ->
  foldr Z.add 0 (alter f i l) = foldr Z.add 0 l - x + f x.
Proof.
  revert i. induction l as [|y l IH]; intros [|i] H; cbn in *; try discriminate.
  - injection H as ->. lia.
  - rewrite (IH i H). lia.
Qed.

Lemma IncreaseUsedMemory_usage_total (tag : MemoryTag) (size : Z) (p : BufferPool) (u : Z) :
  memory_usage_per_tag p !! tag = Some u ->
  usage_total (IncreaseUsedMemory tag size p) = wrap (usage_total p + size).
Proof.
  intros Hu. unfold MemoryTag in *.
  unfold usage_total. cbn. rewrite (sum_alter _ _ _ _ Hu).
  rewrite wrap_add_r, wrap_add_l. f_equal. lia.
Qed.

Lemma IncreaseUsedMemory_accounted (tag : MemoryTag) (size : Z) (p : BufferPool) :
  (tag < length (memory_usage_per_tag p))%nat ->
  accounted p -> accounted (IncreaseUsedMemory tag size p).
Proof.
  intros Hlt Hacc. apply lookup_lt_is_Some_2 in Hlt. destruct Hlt as [u Hu].
  unfold accounted. rewrite (IncreaseUsedMemory_usage_total _ _ _ _ Hu), <- Hacc.
  reflexivity.
Qed.

(** [IncreaseUsedMemory] adds [size] to the total and to the slot of
    the tag, as [idx_t]s, and leaves the other slots alone; when the
    total agreed with the slots before, it does so after. *)
Theorem IncreaseUsedMemory_accounting (tag : MemoryTag) (size : Z) (p : BufferPool) (u : Z) :
  memory_usage_per_tag p !! tag = Some u ->
  current_memory (IncreaseUsedMemory tag size p) = wrap (current_memory p + size) /\
  memory_usage_per_tag (IncreaseUsedMemory tag size p) !! tag = Some (wrap (u + size)) /\
  (forall tag', tag' <> tag ->
     memory_usage_per_tag (IncreaseUsedMemory tag size p) !! tag'
     = memory_usage_per_tag p !! tag') /\
  usage_total (IncreaseUsedMemory tag size p) = wrap (usage_total p + size) /\
  (accounted p -> accounted (IncreaseUsedMemory tag size p)).
Proof.
  intros Hu.
  pose proof (IncreaseUsedMemory_usage_total tag size p u Hu) as Htotal.
  unfold MemoryTag in *.
  split; [reflexivity|]. split.
  { cbn. rewrite list_lookup_alter_eq, Hu. reflexivity. }
  split.
  { intros tag' Hne. cbn. apply list_lookup_alter_ne. congruence. }
  split; [exact Htotal|].
  unfold accounted. intros Hacc. rewrite Htotal, <- Hacc. reflexivity.
Qed.

Lemma IncreaseUsedMemory_accounting_witness :
  accounted (IncreaseUsedMemory 0%nat 40 (BufferPool_new 100)).
Proof.
  refine (proj2 (proj2 (proj2 (proj2
    (IncreaseUsedMemory_accounting 0%nat 40 (BufferPool_new 100) 0 _)))) _).
  - reflexivity.
  - reflexivity.
Defined.

Lemma IncreaseUsedMemory_compose (tag : MemoryTag) (a b : Z) (p : BufferPool) :
  IncreaseUsedMemory tag b (IncreaseUsedMemory tag a p) = IncreaseUsedMemory tag (a + b) p.
Proof.
  destruct p as [c m us q e d act pn].
  unfold IncreaseUsedMemory, set_memory_usage_per_tag, set_current_memory, MemoryTag in *.
  cbn. f_equal.
  - rewrite wrap_add_l, Z.add_assoc. reflexivity.
  - rewrite list_alter_alter_eq. apply list_alter_ext; [|reflexivity].
    intros x _. cbn. rewrite wrap_add_l, Z.add_assoc. reflexivity.
Qed.

(** Memory is given back by adding the two's complement: on counters
    that are [idx_t] values, [IncreaseUsedMemory(tag, size)] followed
    by [IncreaseUsedMemory(tag, -size)] restores the pool. *)
Theorem IncreaseUsedMemory_undo (tag : MemoryTag) (size : Z) (p : BufferPool) :
  0 <= current_memory p < idx_modulus ->
  Forall (fun u => 0 <= u < idx_modulus) (memory_usage_per_tag p) ->
  IncreaseUsedMemory tag (wrap (- size)) (IncreaseUsedMemory tag size p) = p.
Proof.
  intros Hc Hu. rewrite IncreaseUsedMemory_compose.
  destruct p as [c m us q e d act pn].
  unfold IncreaseUsedMemory, set_memory_usage_per_tag, set_current_memory, MemoryTag in *.
  cbn in *.
  assert (Hz : forall x, 0 <= x < idx_modulus -> wrap (x + (size + wrap (- size))) = x).
  { intros x Hx. rewrite Z.add_assoc, wrap_add_r.
    replace (x + size + - size) with x by lia. apply wrap_small, Hx. }
  rewrite (Hz c Hc). f_equal.
  clear Hc Hz. revert tag. induction Hu as [|x l Hx Hl IH]; intros [|tag]; cbn; try reflexivity.
  - f_equal. rewrite Z.add_assoc, wrap_add_r.
    replace (x + size + - size) with x by lia. apply wrap_small, Hx.
  - f_equal. apply IH.
Qed.

Lemma IncreaseUsedMemory_undo_witness :
  IncreaseUsedMemory 0%nat (wrap (- 40)) (IncreaseUsedMemory 0%nat 40 (BufferPool_new 100))
  = BufferPool_new 100.
Proof.
  apply (IncreaseUsedMemory_undo 0%nat 40 (BufferPool_new 100)).
  - unfold idx_modulus. cbn. lia.
  - unfold idx_modulus. cbn. repeat constructor; lia.
Defined.

(** ** Dequeueing outside a purge *)

Lemma spin_until_no_purge_active (fuel : nat) (p : BufferPool) :
  purge_active p = true -> spin_until_no_purge fuel p = None.
Proof.
  intros Hp. induction fuel as [|fuel IH]; [reflexivity|].
  cbn. rewrite Hp. exact IH.
Qed.

(** [TryDequeueWithoutConcurrentPurge] takes the hint at the head of
    the queue, if there is one, only once it has seen [purge_active]
    false, and leaves the flag false; as long as the flag stays true
    its compare-exchange loop does not end, and nothing is dequeued. *)
Theorem TryDequeueWithoutConcurrentPurge_result (fuel : nat) (p : BufferPool) :
  if purge_active p then TryDequeueWithoutConcurrentPurge fuel p = None
  else
    exists p',
      TryDequeueWithoutConcurrentPurge (S fuel) p = Some (head (queue p), p') /\
      queue p' = tail (queue p) /\
      purge_active p' = false /\
      current_memory p' = current_memory p /\
      maximum_memory p' = maximum_memory p /\
      evict_queue_insertions p' = evict_queue_insertions p /\
      total_dead_nodes p' = total_dead_nodes p.
Proof.
  destruct (purge_active p) eqn:Hp.
  - unfold TryDequeueWithoutConcurrentPurge.
    rewrite (spin_until_no_purge_active _ _ Hp). reflexivity.
  - unfold TryDequeueWithoutConcurrentPurge. cbn [spin_until_no_purge]. rewrite Hp.
    unfold try_dequeue. change (queue (set_purge_active true p)) with (queue p).
    destruct (queue p) as [|node q] eqn:Eq; eexists; (split; [reflexivity|]); cbn;
      repeat split; exact Eq.
Qed.

(** ** What an eviction does to the handles and the queue *)

Lemma TryGetBlockHandle_inv (hp : Heap) (node : BufferEvictionNode) id h :
  TryGetBlockHandle hp node = Some (id, h) ->
  handle node = Some id /\ hp !! id = Some (Some h) /\
  timestamp node = eviction_timestamp h /\ BlockHandle_CanUnload h = true /\
  CanUnload node h = true.
Proof.
  unfold TryGetBlockHandle, weak_lock.
  destruct (handle node) as [id'|]; [|discriminate].
  destruct (hp !! id') as [[h'|]|] eqn:E; try discriminate.
  destruct (CanUnload node h') eqn:Ec; cbn; [|discriminate].
  intros [= <- <-]. split; [reflexivity|]. split; [exact E|].
  unfold CanUnload in Ec.
  destruct (Z.eqb_spec (timestamp node) (eviction_timestamp h')) as [Ets|Ets]; cbn in Ec;
    [|discriminate].
  repeat split; try assumption.
  unfold CanUnload. rewrite Ets, Z.eqb_refl. exact Ec.
Qed.

(** Every returning run of the loop function is a run of [evict_run]. *)
Lemma EvictBlocks_loop_evict_run (tag : MemoryTag) (extra_memory memory_limit : Z)
    (buffer : bool) (fuel : nat) :
  forall (w : World) r w',
    EvictBlocks_loop fuel tag extra_memory memory_limit buffer w = Returns r w' ->
    evict_run tag extra_memory memory_limit buffer w r w'.
Proof.
  induction fuel as [|fuel IH]; intros w r w' Hrun; [discriminate|].
  cbn [EvictBlocks_loop] in Hrun.
  destruct (Z.ltb_spec memory_limit (current_memory (pool w))) as [Hover|Hfit].
  2:{ injection Hrun as <- <-. apply evict_fits. exact Hfit. }
  destruct (queue (pool w)) as [|node q] eqn:Eq.
  - unfold try_dequeue in Hrun. rewrite Eq in Hrun.
    unfold TryDequeueWithoutConcurrentPurge in Hrun.
    destruct (spin_until_no_purge (S fuel) (pool w)) as [p1|] eqn:Es; [|discriminate].
    assert (Hp : purge_active (pool w) = false).
    { destruct (purge_active (pool w)) eqn:Hp; [|reflexivity].
      rewrite (spin_until_no_purge_active _ _ Hp) in Es. discriminate. }
    apply spin_until_no_purge_Some in Es. subst p1.
    unfold try_dequeue in Hrun.
    change (queue (set_purge_active true (pool w))) with (queue (pool w)) in Hrun.
    rewrite Eq in Hrun.
    injection Hrun as <- <-. apply evict_exhausted; assumption.
  - unfold try_dequeue in Hrun. rewrite Eq in Hrun.
    change (set_evict_queue_insertions
              (wrap (evict_queue_insertions (set_queue q (pool w)) - 1))
              (set_queue q (pool w)))
      with (dequeued_one q (pool w)) in Hrun.
    destruct (TryGetBlockHandle (handles w) node) as [[id h]|] eqn:Eg.
    + destruct (TryGetBlockHandle_inv _ _ _ _ Eg) as (_ & _ & _ & _ & Hc).
      rewrite Hc in Hrun. cbn [negb] in Hrun.
      destruct (buffer && (alloc_size h =? extra_memory)) eqn:Efast.
      * injection Hrun as <- <-.
        apply andb_true_iff in Efast. destruct Efast as [Hb Ha].
        apply Z.eqb_eq in Ha.
        eapply evict_fast; eassumption.
      * eapply evict_unload; try eassumption. apply IH, Hrun.
    + eapply evict_dead; try eassumption. apply IH, Hrun.
Qed.

Lemma evict_run_dequeues (tag : MemoryTag) (extra_memory memory_limit : Z) (buffer : bool)
    (w : World) r w' :
  evict_run tag extra_memory memory_limit buffer w r w' ->
  exists removed,
    queue (pool w) = removed ++ queue (pool w') /\
    wrap (evict_queue_insertions (pool w'))
      = wrap (evict_queue_insertions (pool w) - Z.of_nat (length removed)).
Proof.
  induction 1 as [w Hfit | w Hover Hq Hp | w node q r w' Hover Hq Hg Hrun IH
                  | w node q id h Hover Hq Hg Hb Ha | w node q id h r w' Hover Hq Hg Hf Hrun IH].
  - exists []. split; [reflexivity|]. cbn. f_equal. lia.
  - exists []. split; [reflexivity|]. cbn. f_equal. lia.
  - destruct IH as (removed & Hrem & He). cbn in Hrem, He.
    exists (node :: removed). split; [rewrite Hq, Hrem; reflexivity|].
    rewrite He, wrap_sub_l. f_equal. cbn [length]. lia.
  - exists [node]. split; [rewrite Hq; reflexivity|]. cbn. rewrite wrap_wrap. reflexivity.
  - destruct IH as (removed & Hrem & He). cbn in Hrem, He.
    exists (node :: removed). split; [rewrite Hq, Hrem; reflexivity|].
    rewrite He, wrap_sub_l. f_equal. cbn [length]. lia.
Qed.

(** [EvictBlocks] takes hints from the front of the queue only, never
    puts one back, and takes one off [evict_queue_insertions], an
    [idx_t], for each hint it has taken. *)
Theorem EvictBlocks_dequeues_front (fuel : nat) (tag : MemoryTag)
    (extra_memory memory_limit : Z) (buffer : bool) (w : World) r w' :
  EvictBlocks fuel tag extra_memory memory_limit buffer w = Returns r w' ->
  exists removed,
    queue (pool w) = removed ++ queue (pool w') /\
    wrap (evict_queue_insertions (pool w'))
      = wrap (evict_queue_insertions (pool w) - Z.of_nat (length removed)).
Proof.
  unfold EvictBlocks. intros Hrun.
  apply EvictBlocks_loop_evict_run, evict_run_dequeues in Hrun. exact Hrun.
Qed.

Lemma EvictBlocks_dequeues_front_witness :
  exists r w' removed,
    EvictBlocks 3 0%nat 0 0 false (add_hints 2 0 world40) = Returns r w' /\
    queue (pool (add_hints 2 0 world40)) = removed ++ queue (pool w') /\
    wrap (evict_queue_insertions (pool w'))
      = wrap (evict_queue_insertions (pool (add_hints 2 0 world40))
              - Z.of_nat (length removed)).
Proof.
  destruct (EvictBlocks 3 0%nat 0 0 false (add_hints 2 0 world40)) as [r w'|e w'|] eqn:E.
  - destruct (EvictBlocks_dequeues_front 3 0%nat 0 0 false (add_hints 2 0 world40) r w' E)
      as (removed & Hq & He).
    exists r, w', removed. split; [reflexivity|]. split; [exact Hq | exact He].
  - exfalso. vm_compute in E. discriminate.
  - exfalso. vm_compute in E. discriminate.
Defined.

Lemma unloaded_cannot_unload (h : BlockHandle) : BlockHandle_CanUnload (unloaded h) = false.
Proof. reflexivity. Qed.

Lemma TryGetBlockHandle_local (hp hp' : Heap) (node : BufferEvictionNode) (id : nat) :
  handle node = Some id -> hp' !! id = hp !! id ->
  TryGetBlockHandle hp' node = TryGetBlockHandle hp node.
Proof.
  intros Hid Hl. unfold TryGetBlockHandle, weak_lock. rewrite Hid, Hl. reflexivity.
Qed.

Lemma evict_run_handles (tag : MemoryTag) (extra_memory memory_limit : Z) (buffer : bool)
    (w : World) r w' :
  evict_run tag extra_memory memory_limit buffer w r w' ->
  length (handles w') = length (handles w) /\
  forall id,
    handles w' !! id = handles w !! id \/
    exists h node,
      node ∈ queue (pool w) /\
      TryGetBlockHandle (handles w) node = Some (id, h) /\
      handles w' !! id = Some (Some (unloaded h)).
Proof.
  induction 1 as [w Hfit | w Hover Hq Hp | w node q r w' Hover Hq Hg Hrun IH
                  | w node q id0 h0 Hover Hq Hg Hb Ha
                  | w node q id0 h0 r w' Hover Hq Hg Hf Hrun IH].
  - split; [reflexivity|]. intros id. left. reflexivity.
  - split; [reflexivity|]. intros id. left. reflexivity.
  - destruct IH as [Hlen IH]. split; [exact Hlen|]. intros id.
    destruct (IH id) as [Hs | (h & n & Hin & Hgn & Hu)]; [left; exact Hs|].
    right. exists h, n. cbn in Hin, Hgn. rewrite Hq.
    split; [apply list_elem_of_further, Hin|]. split; assumption.
  - destruct (TryGetBlockHandle_inv _ _ _ _ Hg) as (_ & Hl & _).
    split; [cbn; apply length_insert|]. intros id.
    destruct (decide (id = id0)) as [->|Hne].
    + right. exists h0, node. rewrite Hq. split; [apply list_elem_of_here|].
      split; [exact Hg|]. cbn. apply list_lookup_insert_eq. eapply lookup_lt_Some, Hl.
    + left. cbn. apply list_lookup_insert_ne. congruence.
  - destruct (TryGetBlockHandle_inv _ _ _ _ Hg) as (_ & Hl & _).
    destruct IH as [Hlen IH]. cbn in Hlen. rewrite length_insert in Hlen.
    split; [exact Hlen|]. intros id.
    assert (Hl0 : <[id0 := Some (unloaded h0)]> (handles w) !! id0 = Some (Some (unloaded h0))).
    { apply list_lookup_insert_eq. eapply lookup_lt_Some, Hl. }
    destruct (IH id) as [Hs | (h & n & Hin & Hgn & Hu)]; cbn in *.
    + destruct (decide (id = id0)) as [->|Hne].
      * right. exists h0, node. rewrite Hq. split; [apply list_elem_of_here|].
        split; [exact Hg|]. rewrite Hs. exact Hl0.
      * left. rewrite Hs. apply list_lookup_insert_ne. congruence.
    + destruct (TryGetBlockHandle_inv _ _ _ _ Hgn) as (Hid & Hln & _ & Hcan & _).
      destruct (decide (id = id0)) as [->|Hne].
      * rewrite Hl0 in Hln. injection Hln as <-.
        rewrite unloaded_cannot_unload in Hcan. discriminate.
      * right. exists h, n. rewrite Hq. split; [apply list_elem_of_further, Hin|].
        split; [|exact Hu].
        rewrite <- Hgn. symmetry. apply (TryGetBlockHandle_local _ _ _ id Hid).
        apply list_lookup_insert_ne. congruence.
Qed.

(** [EvictBlocks] changes a handle in one way only, by unloading it,
    and only a handle that was loaded, had no reader, and was named by
    a hint of the queue carrying its current eviction timestamp: a
    pinned block is never unloaded.  It creates and destroys none. *)
Theorem EvictBlocks_unloads_only_unpinned (fuel : nat) (tag : MemoryTag)
    (extra_memory memory_limit : Z) (buffer : bool) (w : World) r w' :
  EvictBlocks fuel tag extra_memory memory_limit buffer w = Returns r w' ->
  length (handles w') = length (handles w) /\
  forall id,
    handles w' !! id = handles w !! id \/
    exists h node,
      handles w !! id = Some (Some h) /\
      state h = BLOCK_LOADED /\ readers h <= 0 /\
      node ∈ queue (pool w) /\ handle node = Some id /\
      timestamp node = eviction_timestamp h /\
      handles w' !! id = Some (Some (unloaded h)).
Proof.
  unfold EvictBlocks. intros Hrun.
  apply EvictBlocks_loop_evict_run, evict_run_handles in Hrun.
  destruct Hrun as [Hlen Hrun]. split; [exact Hlen|]. intros id.
  destruct (Hrun id) as [Hs | (h & n & Hin & Hg & Hu)]; [left; exact Hs|].
  right. exists h, n.
  destruct (TryGetBlockHandle_inv _ _ _ _ Hg) as (Hid & Hl & Hts & Hcan & _).
  unfold BlockHandle_CanUnload in Hcan.
  destruct (state h) eqn:Es; [discriminate|].
  destruct (Z.ltb_spec 0 (readers h)) as [Hr|Hr]; [discriminate|].
  cbn in Hl, Hin. repeat split; assumption.
Qed.

Lemma EvictBlocks_unloads_only_unpinned_witness :
  exists r w',
    EvictBlocks 2 0%nat 0 0 false (pin 0 (add_hints 1 0 world40)) = Returns r w' /\
    handles w' !! 0%nat = handles (pin 0 (add_hints 1 0 world40)) !! 0%nat.
Proof.
  destruct (EvictBlocks 2 0%nat 0 0 false (pin 0 (add_hints 1 0 world40)))
    as [r w'|e w'|] eqn:E.
  - exists r, w'. split; [reflexivity|].
    destruct (EvictBlocks_unloads_only_unpinned 2 0%nat 0 0 false
                (pin 0 (add_hints 1 0 world40)) r w' E) as [_ H].
    destruct (H 0%nat) as [Hs | (h & n & Hl & _ & Hr & _)]; [exact Hs|].
    exfalso. vm_compute in Hl. injection Hl as <-. vm_compute in Hr. apply Hr. reflexivity.
  - exfalso. vm_compute in E. discriminate.
  - exfalso. vm_compute in E. discriminate.
Defined.

Lemma evict_run_exhausts (tag : MemoryTag) (extra_memory memory_limit : Z) (buffer : bool)
    (w : World) r w' :
  evict_run tag extra_memory memory_limit buffer w r w' ->
  success r = false ->
  reservation r = 0 /\ taken r = None /\
  queue (pool w') = [] /\
  forall node id h,
    node ∈ queue (pool w) ->
    TryGetBlockHandle (handles w) node = Some (id, h) ->
    handles w' !! id = Some (Some (unloaded h)).
Proof.
  induction 1 as [w Hfit | w Hover Hq Hp | w node q r w' Hover Hq Hg Hrun IH
                  | w node q id0 h0 Hover Hq Hg Hb Ha
                  | w node q id0 h0 r w' Hover Hq Hg Hf Hrun IH]; intros Hs.
  - discriminate.
  - split; [reflexivity|]. split; [reflexivity|]. split; [exact Hq|].
    intros node id h Hin. rewrite Hq in Hin. apply elem_of_nil in Hin. contradiction.
  - destruct (IH Hs) as (Hr & Ht & Hq' & Hall). repeat split; try assumption.
    intros n id h Hin Hgn. rewrite Hq in Hin. apply elem_of_cons in Hin.
    destruct Hin as [->|Hin]; [congruence|].
    apply (Hall n id h); assumption.
  - discriminate.
  - destruct (IH Hs) as (Hr & Ht & Hq' & Hall). repeat split; try assumption.
    destruct (TryGetBlockHandle_inv _ _ _ _ Hg) as (Hid0 & Hl0 & _).
    assert (Hl1 : <[id0 := Some (unloaded h0)]> (handles w) !! id0
                  = Some (Some (unloaded h0))).
    { apply list_lookup_insert_eq. eapply lookup_lt_Some, Hl0. }
    intros n id h Hin Hgn.
    destruct (TryGetBlockHandle_inv _ _ _ _ Hgn) as (Hid & Hl & _).
    destruct (decide (id = id0)) as [->|Hne].
    + assert (h = h0) as -> by congruence.
      destruct (evict_run_handles _ _ _ _ _ _ _ Hrun) as [_ Hh].
      destruct (Hh id0) as [Hsame | (h' & n' & _ & Hg' & _)]; cbn in *.
      * rewrite Hsame. exact Hl1.
      * destruct (TryGetBlockHandle_inv _ _ _ _ Hg') as (_ & Hl' & _ & Hcan & _).
        rewrite Hl1 in Hl'. injection Hl' as <-.
        rewrite unloaded_cannot_unload in Hcan. discriminate.
    + rewrite Hq in Hin. apply elem_of_cons in Hin.
      destruct Hin as [->|Hin]; [congruence|].
      apply (Hall n id h); [exact Hin|]. cbn.
      rewrite <- Hgn. apply (TryGetBlockHandle_local _ _ _ id Hid).
      apply list_lookup_insert_ne. congruence.
Qed.

(** [EvictBlocks] reports failure only once the queue is exhausted: the
    queue is then empty, the reservation returned is empty, and every
    handle that had an alive hint in the queue has been unloaded. *)
Theorem EvictBlocks_failure_exhausts (fuel : nat) (tag : MemoryTag)
    (extra_memory memory_limit : Z) (buffer : bool) (w : World) r w' :
  EvictBlocks fuel tag extra_memory memory_limit buffer w = Returns r w' ->
  success r = false ->
  reservation r = 0 /\ taken r = None /\
  queue (pool w') = [] /\
  forall node id h,
    node ∈ queue (pool w) ->
    TryGetBlockHandle (handles w) node = Some (id, h) ->
    handles w' !! id = Some (Some (unloaded h)).
Proof.
  unfold EvictBlocks. intros Hrun Hs.
  apply EvictBlocks_loop_evict_run in Hrun.
  apply (evict_run_exhausts _ _ _ _ _ _ _ Hrun Hs).
Qed.

Lemma EvictBlocks_failure_exhausts_witness :
  exists r w',
    EvictBlocks 2 0%nat 0 0 false (add_hints 1 0 world100) = Returns r w' /\
    success r = false /\
    queue (pool w') = [] /\
    handles w' !! 0%nat = Some (Some (unloaded (bump_timestamp 1 block40))).
Proof.
  destruct (EvictBlocks 2 0%nat 0 0 false (add_hints 1 0 world100)) as [r w'|e w'|] eqn:E.
  - assert (Hs : success r = false) by (vm_compute in E; injection E as <- _; reflexivity).
    destruct (EvictBlocks_failure_exhausts 2 0%nat 0 0 false (add_hints 1 0 world100) r w' E Hs)
      as (_ & _ & Hq & Hall).
    exists r, w'. split; [reflexivity|]. split; [exact Hs|]. split; [exact Hq|].
    apply (Hall (mkNode (Some 0%nat) 1)).
    + vm_compute. apply list_elem_of_here.
    + reflexivity.
  - exfalso. vm_compute in E. discriminate.
  - exfalso. vm_compute in E. discriminate.
Defined.

(** L1 of the specification, as the code has it: once a hint has been
    added for a handle that can be unloaded, a call of [EvictBlocks]
    without buffer either brings [current_memory] down to the limit or
    unloads the handle. *)
Theorem AddToEvictionQueue_then_EvictBlocks (fuel : nat) (tag : MemoryTag)
    (extra_memory memory_limit : Z) (id : nat) (h : BlockHandle) (w : World) :
  handles w !! id = Some (Some h) ->
  BlockHandle_CanUnload h = true ->
  purge_active (pool w) = false ->
  (S (length (queue (pool w))) < fuel)%nat ->
  exists b w1 r w',
    AddToEvictionQueue id w = Some (b, w1) /\
    EvictBlocks fuel tag extra_memory memory_limit false w1 = Returns r w' /\
    ((success r = true /\ current_memory (pool w') <= memory_limit) \/
     (success r = false /\
      handles w' !! id
        = Some (Some (unloaded (bump_timestamp (wrap (eviction_timestamp h + 1)) h))))).
Proof.
  intros Hh Hcan Hp Hfuel.
  destruct (AddToEvictionQueue_run id h w Hh)
    as (b & w1 & Hadd & Hhp & Hl1 & Hq & _ & _ & _ & _ & _ & Hp1).
  destruct (EvictBlocks_returns fuel tag extra_memory memory_limit false w1)
    as (r & w' & Hrun & _ & _ & _ & _ & Hbuf & Hok & _).
  { rewrite Hp1. exact Hp. }
  { rewrite Hq, length_app. cbn. lia. }
  exists b, w1, r, w'. split; [exact Hadd|]. split; [exact Hrun|].
  destruct (success r) eqn:Es.
  - left. split; [reflexivity|]. apply Hok; [reflexivity|]. apply Hbuf. reflexivity.
  - right. split; [reflexivity|].
    pose proof Hrun as Hev. unfold EvictBlocks in Hev.
    apply EvictBlocks_loop_evict_run in Hev.
    destruct (evict_run_exhausts _ _ _ _ _ _ _ Hev Es) as (_ & _ & _ & Hall).
    apply (Hall (mkNode (Some id) (wrap (eviction_timestamp h + 1)))).
    + cbn. rewrite Hq. apply elem_of_app. right. apply list_elem_of_here.
    + cbn. unfold TryGetBlockHandle, weak_lock. cbn. rewrite Hl1. cbn.
      unfold CanUnload. cbn. rewrite Z.eqb_refl. cbn.
      change (BlockHandle_CanUnload (bump_timestamp (wrap (eviction_timestamp h + 1)) h))
        with (BlockHandle_CanUnload h).
      rewrite Hcan. reflexivity.
Qed.

Lemma AddToEvictionQueue_then_EvictBlocks_witness :
  exists b w1 r w',
    AddToEvictionQueue 0%nat world40 = Some (b, w1) /\
    EvictBlocks 3 0%nat 0 0 false w1 = Returns r w' /\
    ((success r = true /\ current_memory (pool w') <= 0) \/
     (success r = false /\
      handles w' !! 0%nat
        = Some (Some (unloaded (bump_timestamp (wrap (eviction_timestamp block40 + 1))
                                  block40))))).
Proof.
  apply (AddToEvictionQueue_then_EvictBlocks 3 0%nat 0 0 0%nat block40 world40).
  - reflexivity.
  - reflexivity.
  - reflexivity.
  - cbn. lia.
Defined.

(** ** More on SetLimit *)

Lemma wrap_add_zero (x : Z) : 0 <= x < idx_modulus -> wrap (x + wrap (0 - 0)) = x.
Proof. intros H. change (wrap (0 - 0)) with 0. rewrite Z.add_0_r. apply wrap_small, H. Qed.

Lemma evict_run_frame (tag : MemoryTag) (extra_memory memory_limit : Z) (buffer : bool)
    (w : World) r w' :
  evict_run tag extra_memory memory_limit buffer w r w' ->
  maximum_memory (pool w') = maximum_memory (pool w) /\
  (0 <= current_memory (pool w) < idx_modulus ->
   0 <= current_memory (pool w') < idx_modulus) /\
  (success r = true -> taken r = None -> current_memory (pool w') <= memory_limit).
Proof.
  induction 1 as [w Hfit | w Hover Hq Hp | w node q r w' Hover Hq Hg Hrun IH
                  | w node q id0 h0 Hover Hq Hg Hb Ha
                  | w node q id0 h0 r w' Hover Hq Hg Hf Hrun IH].
  - split; [reflexivity|]. split; [tauto|]. intros _ _. exact Hfit.
  - split; [reflexivity|]. split; [intros _; apply wrap_range|]. discriminate.
  - destruct IH as (Hm & Hr & Hs). split; [exact Hm|]. split; [exact Hr | exact Hs].
  - split; [reflexivity|]. split; [intros _; apply wrap_range|]. discriminate.
  - destruct IH as (Hm & Hr & Hs). split; [exact Hm|]. split; [|exact Hs].
    intros _. apply Hr. cbn. apply wrap_range.
Qed.

Lemma evict_run_failure_over (tag : MemoryTag) (memory_limit : Z) (buffer : bool)
    (w : World) r w' :
  evict_run tag 0 memory_limit buffer w r w' ->
  0 <= current_memory (pool w) < idx_modulus ->
  success r = false ->
  memory_limit < current_memory (pool w').
Proof.
  induction 1 as [w Hfit | w Hover Hq Hp | w node q r w' Hover Hq Hg Hrun IH
                  | w node q id0 h0 Hover Hq Hg Hb Ha
                  | w node q id0 h0 r w' Hover Hq Hg Hf Hrun IH]; intros Hrange Hs.
  - discriminate.
  - cbn. rewrite (wrap_add_zero _ Hrange). exact Hover.
  - apply IH; assumption.
  - discriminate.
  - apply IH; [cbn; apply wrap_range | exact Hs].
Qed.

Lemma evict_run_fits_inv (tag : MemoryTag) (extra_memory memory_limit : Z) (buffer : bool)
    (w : World) r w' :
  evict_run tag extra_memory memory_limit buffer w r w' ->
  current_memory (pool w) <= memory_limit ->
  success r = true /\ w' = w.
Proof.
  intros Hrun Hfit. inversion Hrun; subst; try lia. split; reflexivity.
Qed.

Lemma evict_run_result (tag : MemoryTag) (extra_memory memory_limit : Z) (buffer : bool)
    (w : World) r w' :
  evict_run tag extra_memory memory_limit buffer w r w' ->
  reservation r = (if success r then extra_memory else 0) /\
  (buffer = false -> taken r = None).
Proof.
  induction 1 as [w Hfit | w Hover Hq Hp | w node q r w' Hover Hq Hg Hrun IH
                  | w node q id0 h0 Hover Hq Hg Hb Ha
                  | w node q id0 h0 r w' Hover Hq Hg Hf Hrun IH];
    try exact IH; cbn; split; try reflexivity; congruence.
Qed.

(** A rejected [SetLimit] is not without effect: when it throws, the
    exception is the [OutOfMemoryException] for [limit], the limit is
    the one before the call, but the eviction queue has been emptied,
    every handle that had an alive hint in it has been unloaded, and
    [current_memory] is still above [limit]. *)
Theorem SetLimit_rejected (fuel : nat) (limit : Z) (postscript : string) (w : World) e w' :
  SetLimit fuel limit postscript w = Throws e w' ->
  e = OutOfMemoryException limit_message limit postscript /\
  maximum_memory (pool w') = maximum_memory (pool w) /\
  queue (pool w') = [] /\
  limit < current_memory (pool w') /\
  forall node id h,
    node ∈ queue (pool w) ->
    TryGetBlockHandle (handles w) node = Some (id, h) ->
    handles w' !! id = Some (Some (unloaded h)).
Proof.
  unfold SetLimit. intros Hrun.
  destruct (EvictBlocks fuel EXTENSION 0 limit false w) as [r1 w1|e1 w1|] eqn:Ev1;
    [| exfalso; eapply EvictBlocks_loop_never_throws; exact Ev1 | discriminate].
  pose proof Ev1 as Hev1. unfold EvictBlocks in Hev1.
  apply EvictBlocks_loop_evict_run in Hev1.
  destruct (evict_run_frame _ _ _ _ _ _ _ Hev1) as (Hm1 & Hr1 & Hfit1).
  destruct (evict_run_result _ _ _ _ _ _ _ Hev1) as (Hres1 & Hbuf1).
  assert (Hrange1 : 0 <= current_memory (pool w1) < idx_modulus).
  { apply Hr1. cbn. apply wrap_range. }
  destruct (success r1) eqn:Es1; cbn [negb] in Hrun.
  - exfalso. unfold SetLimit_evict_again in Hrun.
    match type of Hrun with
    | context [EvictBlocks fuel EXTENSION 0 limit false ?w2] =>
        destruct (EvictBlocks fuel EXTENSION 0 limit false w2) as [r2 w3|e2 w3|] eqn:Ev2;
          [| eapply EvictBlocks_loop_never_throws; exact Ev2 | discriminate]
    end.
    destruct (success r2) eqn:Es2; cbn [negb] in Hrun; [discriminate|].
    unfold EvictBlocks in Ev2. apply EvictBlocks_loop_evict_run in Ev2.
    apply evict_run_fits_inv in Ev2.
    + destruct Ev2 as [Hs2 _]. congruence.
    + cbn. rewrite Hres1. rewrite !(wrap_add_zero _ Hrange1).
      apply Hfit1; [reflexivity | apply Hbuf1; reflexivity].
  - injection Hrun as <- <-.
    destruct (evict_run_exhausts _ _ _ _ _ _ _ Hev1 Es1) as (Hres & _ & Hq & Hall).
    split; [reflexivity|]. split; [exact Hm1|]. split; [exact Hq|].
    split; [|exact Hall].
    rewrite (drop_result_empty _ _ _ Hres Hrange1).
    apply (evict_run_failure_over _ _ _ _ _ _ Hev1); [cbn; apply wrap_range | exact Es1].
Qed.

Lemma SetLimit_rejected_witness :
  exists e w',
    SetLimit 2 10 " suffix" (add_hints 1 0 world100) = Throws e w' /\
    e = OutOfMemoryException limit_message 10 " suffix" /\
    maximum_memory (pool w') = 100 /\
    queue (pool w') = [] /\
    10 < current_memory (pool w').
Proof.
  destruct (SetLimit 2 10 " suffix" (add_hints 1 0 world100)) as [u w'|e w'|] eqn:E.
  - exfalso. vm_compute in E. discriminate.
  - destruct (SetLimit_rejected 2 10 " suffix" (add_hints 1 0 world100) e w' E)
      as (He & Hm & Hq & Hc & _).
    exists e, w'. split; [reflexivity|]. split; [exact He|]. split; [exact Hm|].
    split; [exact Hq | exact Hc].
  - exfalso. vm_compute in E. discriminate.
Defined.

Lemma EvictBlocks_fits (fuel : nat) (tag : MemoryTag) (extra_memory memory_limit : Z)
    (buffer : bool) (w : World) :
  wrap (current_memory (pool w) + wrap (extra_memory - 0)) <= memory_limit ->
  EvictBlocks (S fuel) tag extra_memory memory_limit buffer w
  = Returns (mkEvictionResult true extra_memory None)
            (on_pool (Reservation_Resize tag 0 extra_memory) w).
Proof.
  intros Hfit. unfold EvictBlocks. cbn [EvictBlocks_loop].
  destruct (Z.ltb_spec memory_limit
              (current_memory (pool (on_pool (Reservation_Resize tag 0 extra_memory) w))))
    as [Hover|_]; [|reflexivity].
  cbn in Hover. lia.
Qed.

(** [SetLimit] to a limit that the used memory already respects
    returns and only stores the limit: no hint is dequeued, no handle
    is touched, and [current_memory] and the queue counters are as
    before. *)
Theorem SetLimit_within_limit (fuel : nat) (limit : Z) (postscript : string) (w : World) :
  0 <= current_memory (pool w) < idx_modulus ->
  current_memory (pool w) <= limit ->
  exists w',
    SetLimit (S fuel) limit postscript w = Returns tt w' /\
    maximum_memory (pool w') = limit /\
    handles w' = handles w /\
    queue (pool w') = queue (pool w) /\
    current_memory (pool w') = current_memory (pool w) /\
    evict_queue_insertions (pool w') = evict_queue_insertions (pool w) /\
    total_dead_nodes (pool w') = total_dead_nodes (pool w) /\
    purge_active (pool w') = purge_active (pool w).
Proof.
  intros Hrange Hfit. unfold SetLimit.
  rewrite EvictBlocks_fits by (rewrite (wrap_add_zero _ Hrange); exact Hfit).
  cbn [success negb]. unfold SetLimit_evict_again.
  rewrite EvictBlocks_fits.
  2:{ cbn. rewrite !(wrap_add_zero _ Hrange). exact Hfit. }
  cbn [success negb]. eexists. split; [reflexivity|]. cbn.
  rewrite !(wrap_add_zero _ Hrange). repeat split.
Qed.

Lemma SetLimit_within_limit_witness :
  exists w',
    SetLimit 1 60 " suffix" (add_hints 1 0 world40) = Returns tt w' /\
    maximum_memory (pool w') = 60 /\
    handles w' = handles (add_hints 1 0 world40) /\
    queue (pool w') = queue (pool (add_hints 1 0 world40)).
Proof.
  destruct (SetLimit_within_limit 0 60 " suffix" (add_hints 1 0 world40))
    as (w' & Hrun & Hm & Hh & Hq & _).
  - vm_compute. split; [discriminate|reflexivity].
  - vm_compute. discriminate.
  - exists w'. split; [exact Hrun|]. split; [exact Hm|]. split; [exact Hh | exact Hq].
Defined.

(** ** Hints killed by a newer hint *)

Lemma reachable_one_hint : reachable (add_hints 1 0 world40).
Proof.
  eapply reach_add with (id := 0%nat) (w := world40);
    [ | reflexivity | reflexivity | vm_compute; reflexivity | reflexivity ].
  change world40 with
    (on_pool (IncreaseUsedMemory 0%nat 40)
       (set_handles [Some block40] (mkWorld [] (BufferPool_new 100)))).
  apply reach_increase, reach_env; [apply reach_new|].
  split; [cbn; lia|].
  intros [|id] h' H; cbn in H; [|discriminate].
  injection H as <-. reflexivity.
Qed.

(** In a reachable state, [AddToEvictionQueue] for a handle whose
    timestamp does not wrap kills every hint the queue held for that
    handle: none of them is alive afterwards.  The hint it adds is
    alive exactly when the handle can be unloaded, and the hints of
    other handles are alive or not as they were. *)
Theorem AddToEvictionQueue_kills_previous (id : nat) (h : BlockHandle) (w w1 : World)
    (b : bool) :
  reachable w ->
  handles w !! id = Some (Some h) ->
  eviction_timestamp h + 1 < idx_modulus ->
  AddToEvictionQueue id w = Some (b, w1) ->
  (forall node, node ∈ queue (pool w) -> handle node = Some id ->
     ~ alive (handles w1) node) /\
  (forall node, handle node <> Some id ->
     (alive (handles w1) node <-> alive (handles w) node)) /\
  (alive (handles w1) (mkNode (Some id) (eviction_timestamp h + 1))
   <-> BlockHandle_CanUnload h = true).
Proof.
  intros Hr Hh Hwrap Hadd.
  destruct (reachable_queue_invariant w Hr) as [_ _ Hpast Hnn].
  destruct (AddToEvictionQueue_run id h w Hh) as (b' & w'' & Hrun & Hhp & Hl1 & _).
  rewrite Hadd in Hrun. injection Hrun as <- <-.
  assert (Hts : wrap (eviction_timestamp h + 1) = eviction_timestamp h + 1).
  { apply wrap_small. specialize (Hnn id h Hh). lia. }
  rewrite Hts in Hhp, Hl1.
  split; [|split].
  - intros node Hin Hid Halive.
    apply TryGetBlockHandle_Some in Halive.
    destruct Halive as (id' & h' & Hid' & Hl' & Hts' & _).
    assert (id' = id) as -> by congruence.
    rewrite Hl1 in Hl'. injection Hl' as <-. cbn in Hts'.
    specialize (Hpast node id h Hin Hid Hh). lia.
  - intros node Hne. unfold alive.
    destruct (handle node) as [id'|] eqn:Hid.
    + rewrite (TryGetBlockHandle_local (handles w) (handles w1) node id' Hid); [reflexivity|].
      rewrite Hhp. apply list_lookup_insert_ne. congruence.
    + unfold TryGetBlockHandle, weak_lock. rewrite Hid. reflexivity.
  - rewrite TryGetBlockHandle_Some. cbn. split.
    + intros (id' & h' & Hid' & Hl' & _ & Hcan).
      injection Hid' as <-. rewrite Hl1 in Hl'. injection Hl' as <-. exact Hcan.
    + intros Hcan. exists id, (bump_timestamp (eviction_timestamp h + 1) h).
      repeat split; assumption.
Qed.

Lemma AddToEvictionQueue_kills_previous_witness :
  ~ alive (handles (add_hints 2 0 world40)) (mkNode (Some 0%nat) 1).
Proof.
  refine (proj1 (AddToEvictionQueue_kills_previous 0%nat (bump_timestamp 1 block40)
                   (add_hints 1 0 world40) (add_hints 2 0 world40) false
                   reachable_one_hint _ _ _) (mkNode (Some 0%nat) 1) _ _).
  - reflexivity.
  - vm_compute. reflexivity.
  - reflexivity.
  - vm_compute. apply list_elem_of_here.
  - reflexivity.
Defined.

(** ** What a purge keeps *)

(** A call of [PurgeQueue] that returns has touched neither the
    handles nor the memory counters and leaves [purge_active] as it
    found it; the queue has not grown, and every hint in it that names
    a handle was in the queue before the call, no more often than
    before: a purge removes hints or empties them, and invents none. *)
Theorem PurgeQueue_only_loses_hints (fuel : nat) (w : World) n w' :
  PurgeQueue fuel w = Returns n w' ->
  handles w' = handles w /\
  current_memory (pool w') = current_memory (pool w) /\
  maximum_memory (pool w') = maximum_memory (pool w) /\
  memory_usage_per_tag (pool w') = memory_usage_per_tag (pool w) /\
  purge_active (pool w') = purge_active (pool w) /\
  (length (queue (pool w')) <= length (queue (pool w)))%nat /\
  named (queue (pool w')) ⊆+ named (queue (pool w)) /\
  forall node, node ∈ queue (pool w') -> is_Some (handle node) -> node ∈ queue (pool w).
Proof.
  intros Hrun. apply PurgeQueue_purges_only in Hrun.
  destruct Hrun as ((Hh & Hc & Hm & Hu & Hl & Hq) & Hp & _).
  repeat split; try assumption.
  intros node Hin Hn.
  assert (Hf : node ∈ named (queue (pool w'))).
  { apply elem_of_named. split; assumption. }
  eapply elem_of_submseteq in Hf; [|exact Hq].
  apply elem_of_named in Hf. apply Hf.
Qed.

Lemma PurgeQueue_only_loses_hints_witness :
  exists n w',
    PurgeQueue 4 sweep_world = Returns n w' /\
    handles w' = handles sweep_world /\
    (length (queue (pool w')) <= length (queue (pool sweep_world)))%nat /\
    named (queue (pool w')) ⊆+ named (queue (pool sweep_world)).
Proof.
  destruct (PurgeQueue 4 sweep_world) as [n w'|e w'|] eqn:E.
  - exists n, w'. split; [reflexivity|].
    destruct (PurgeQueue_only_loses_hints 4 sweep_world n w' E)
      as (Hh & _ & _ & _ & _ & Hl & Hq & _).
    split; [exact Hh|]. split; [exact Hl | exact Hq].
  - exfalso. vm_compute in E. discriminate.
  - exfalso. vm_compute in E. discriminate.
Defined.




Lemma PurgeIteration_size (purge_size : Z) (w : World) :
  size_approx (pool (PurgeIteration purge_size w)) =
  size_approx (pool w)
  - Z.of_nat (length (take (Z.to_nat purge_size) (queue (pool w))))
  + Z.of_nat (length (filter (alive (handles w))
                        (take (Z.to_nat purge_size) (queue (pool w))))).
Proof.
  unfold size_approx. rewrite PurgeIteration_queue, length_app, compacted_length.
  rewrite <- (take_drop (Z.to_nat purge_size) (queue (pool w))) at 3.
  rewrite length_app. lia.
Qed.

Lemma PurgeIteration_estimate (purge_size : Z) (w : World) :
  wrap (size_approx (pool (PurgeIteration purge_size w))
        - total_dead_nodes (pool (PurgeIteration purge_size w)))
  = wrap (size_approx (pool w) - total_dead_nodes (pool w)).
Proof.
  rewrite PurgeIteration_total_dead_nodes, PurgeIteration_size.
  rewrite wrap_sub_r.
  set (t := Z.of_nat (length (take _ _))).
  set (a := Z.of_nat (length (filter _ _))).
  replace (size_approx (pool w) - t + a - (total_dead_nodes (pool w) - wrap (t - a)))
    with (size_approx (pool w) - t + a - total_dead_nodes (pool w) + wrap (t - a)) by lia.
  rewrite wrap_add_r. f_equal. lia.
Qed.

Lemma PurgeQueue_loop_estimate (purge_size : Z) (fuel : nat) :
  forall (max_purges : Z) (iterations : nat) (w : World) n w',
    PurgeQueue_loop fuel purge_size max_purges iterations w = Returns n w' ->
    wrap (size_approx (pool w') - total_dead_nodes (pool w'))
    = wrap (size_approx (pool w) - total_dead_nodes (pool w)).
Proof.
  induction fuel as [|fuel IH]; intros m it w n w' Hrun.
  - cbn in Hrun. destruct (m =? 0); [|discriminate]. injection Hrun as <- <-. reflexivity.
  - cbn [PurgeQueue_loop] in Hrun. destruct (m =? 0).
    { injection Hrun as <- <-. reflexivity. }
    destruct (_ <? wrap (purge_size * EARLY_OUT_MULTIPLIER)).
    { injection Hrun as <- <-. apply PurgeIteration_estimate. }
    match type of Hrun with context [if ?c then _ else _] => destruct c end.
    { injection Hrun as <- <-. apply PurgeIteration_estimate. }
    apply IH in Hrun. rewrite Hrun. apply PurgeIteration_estimate.
Qed.

(** A purge drops a hint and takes one off [total_dead_nodes]
    together: the difference between the queue size and the dead-node
    counter, the pool's estimate of the alive hints, is the same, as an
    [idx_t], after [PurgeQueue] as before. *)
Theorem PurgeQueue_keeps_estimate (fuel : nat) (w : World) n w' :
  PurgeQueue fuel w = Returns n w' ->
  wrap (size_approx (pool w') - total_dead_nodes (pool w'))
  = wrap (size_approx (pool w) - total_dead_nodes (pool w)).
Proof.
  unfold PurgeQueue. intros Hrun.
  destruct (purge_active (pool w)).
  { injection Hrun as <- <-. reflexivity. }
  destruct (_ <? wrap (_ * EARLY_OUT_MULTIPLIER)).
  { injection Hrun as <- <-. reflexivity. }
  destruct (_ =? 0); [discriminate|].
  apply PurgeQueue_loop_estimate in Hrun. exact Hrun.
Qed.

Lemma PurgeQueue_keeps_estimate_witness :
  exists n w',
    PurgeQueue 4 sweep_world = Returns n w' /\
    wrap (size_approx (pool w') - total_dead_nodes (pool w')) = wrap (8 - 7).
Proof.
  destruct (PurgeQueue 4 sweep_world) as [n w'|e w'|] eqn:E.
  - exists n, w'. split; [reflexivity|].
    exact (PurgeQueue_keeps_estimate 4 sweep_world n w' E).
  - exfalso. vm_compute in E. discriminate.
  - exfalso. vm_compute in E. discriminate.
Defined.

(** ** The scratch vector of a purge iteration *)

Lemma PurgeIteration_scan_length (purge_size : Z) (w : World) :
  0 <= purge_size ->
  length (PurgeIteration_scan purge_size w).1.1 =
  (if (purge_size <? Z.of_nat (length (purge_nodes (pool w))) / 2)
      || (Z.of_nat (length (purge_nodes (pool w))) <? purge_size)
   then Z.to_nat purge_size
   else length (purge_nodes (pool w))).
Proof.
  intros Hps. unfold PurgeIteration_scan.
  set (dequeued := take (Z.to_nat purge_size) (queue (pool w))).
  set (prev := Z.of_nat (length (purge_nodes (pool w)))).
  set (c := (purge_size <? prev / 2) || (prev <? purge_size)).
  set (nodes0 := if c then resize (Z.to_nat purge_size) default_node (purge_nodes (pool w))
                 else purge_nodes (pool w)).
  assert (Hk : (length dequeued <= Z.to_nat purge_size)%nat).
  { unfold dequeued. rewrite length_take. lia. }
  assert (Hn0 : (Z.to_nat purge_size <= length nodes0)%nat /\
                length nodes0 = if c then Z.to_nat purge_size
                                else length (purge_nodes (pool w))).
  { unfold nodes0. destruct c eqn:Ec.
    - rewrite length_resize. split; [lia|reflexivity].
    - split; [|reflexivity]. unfold c in Ec. apply orb_false_iff in Ec.
      destruct Ec as [_ Ec]. apply Z.ltb_ge in Ec. unfold prev in Ec. lia. }
  destruct Hn0 as [Hge Hlen0].
  set (nodes1 := dequeued ++ drop (length dequeued) nodes0).
  destruct (compact_alive_spec (handles w) (length dequeued) 0 0 nodes1) as (_ & Hl & _).
  { lia. }
  { unfold nodes1. rewrite length_app. lia. }
  destruct (compact_alive (handles w) (length dequeued) 0 0 nodes1) as [nodes2 n].
  cbn [fst snd] in *. rewrite Hl. unfold nodes1.
  rewrite length_app, length_drop, <- Hlen0. lia.
Qed.

(** The scratch vector [purge_nodes] always has room for the hints of
    the bulk dequeue: after [PurgeIteration(purge_size)] its size is
    [purge_size] if it was resized and its former size if not, and in
    both cases lies between [purge_size] and [2 * purge_size + 1]. *)
Theorem PurgeIteration_purge_nodes_size (purge_size : Z) (w : World) :
  0 <= purge_size ->
  length (purge_nodes (pool (PurgeIteration purge_size w))) =
    (if (purge_size <? Z.of_nat (length (purge_nodes (pool w))) / 2)
        || (Z.of_nat (length (purge_nodes (pool w))) <? purge_size)
     then Z.to_nat purge_size
     else length (purge_nodes (pool w))) /\
  purge_size <= Z.of_nat (length (purge_nodes (pool (PurgeIteration purge_size w))))
    <= 2 * purge_size + 1 /\
  (length (take (Z.to_nat purge_size) (queue (pool w)))
   <= length (purge_nodes (pool (PurgeIteration purge_size w))))%nat.
Proof.
  intros Hps.
  assert (Hlen : length (purge_nodes (pool (PurgeIteration purge_size w)))
                 = length (PurgeIteration_scan purge_size w).1.1).
  { unfold PurgeIteration.
    destruct (PurgeIteration_scan purge_size w) as [[nodes dequeued] n]. reflexivity. }
  rewrite Hlen, (PurgeIteration_scan_length _ _ Hps).
  split; [reflexivity|].
  set (prev := length (purge_nodes (pool w))).
  assert (Hb : purge_size <=
               Z.of_nat (if (purge_size <? Z.of_nat prev / 2) || (Z.of_nat prev <? purge_size)
                         then Z.to_nat purge_size else prev) <= 2 * purge_size + 1).
  { destruct (Z.ltb_spec purge_size (Z.of_nat prev / 2)) as [H1|H1]; cbn [orb]; [lia|].
    destruct (Z.ltb_spec (Z.of_nat prev) purge_size) as [H2|H2]; [lia|].
    split; [lia|].
    pose proof (Z.mul_succ_div_gt (Z.of_nat prev) 2). lia. }
  split; [exact Hb|].
  rewrite length_take. lia.
Qed.

Lemma PurgeIteration_purge_nodes_size_witness :
  2 <= Z.of_nat (length (purge_nodes (pool (PurgeIteration 2 sweep_world)))) <= 2 * 2 + 1.
Proof.
  refine (proj1 (proj2 (PurgeIteration_purge_nodes_size 2 sweep_world _))).
  lia.
Defined.

(** ** The floor of a purge *)

Lemma PurgeIteration_size_floor (purge_size : Z) (w : World) :
  0 <= purge_size ->
  size_approx (pool w) - purge_size <= size_approx (pool (PurgeIteration purge_size w)).
Proof.
  intros Hps. rewrite PurgeIteration_size, length_take. lia.
Qed.

Lemma PurgeQueue_loop_floor (purge_size : Z) (fuel : nat) :
  0 <= purge_size ->
  forall (max_purges : Z) (iterations : nat) (w : World) n w',
    wrap (purge_size * EARLY_OUT_MULTIPLIER) <= size_approx (pool w) ->
    PurgeQueue_loop fuel purge_size max_purges iterations w = Returns n w' ->
    wrap (purge_size * EARLY_OUT_MULTIPLIER) - purge_size <= size_approx (pool w').
Proof.
  intros Hps.
  induction fuel as [|fuel IH]; intros m it w n w' Hsize Hrun.
  - cbn in Hrun. destruct (m =? 0); [|discriminate]. injection Hrun as <- <-.
    change (size_approx (pool (purge_done w))) with (size_approx (pool w)). lia.
  - cbn [PurgeQueue_loop] in Hrun. destruct (m =? 0).
    { injection Hrun as <- <-.
      change (size_approx (pool (purge_done w))) with (size_approx (pool w)). lia. }
    pose proof (PurgeIteration_size_floor purge_size w Hps) as Hfloor.
    destruct (Z.ltb_spec (size_approx (pool (PurgeIteration purge_size w)))
                (wrap (purge_size * EARLY_OUT_MULTIPLIER))) as [Hout|Hin].
    { injection Hrun as <- <-.
      change (size_approx (pool (purge_done (PurgeIteration purge_size w))))
        with (size_approx (pool (PurgeIteration purge_size w))). lia. }
    match type of Hrun with context [if ?c then _ else _] => destruct c end.
    { injection Hrun as <- <-.
      change (size_approx (pool (purge_done (PurgeIteration purge_size w))))
        with (size_approx (pool (PurgeIteration purge_size w))). lia. }
    eapply IH; [exact Hin | exact Hrun].
Qed.

(** [PurgeQueue] does not purge a queue below its early-out size: a
    call that returns either has made no purge iteration and left the
    queue as it was, or leaves at least
    [purge_size * EARLY_OUT_MULTIPLIER - purge_size] hints in it. *)
Theorem PurgeQueue_floor (fuel : nat) (w : World) n w' :
  PurgeQueue fuel w = Returns n w' ->
  (n = 0%nat /\ queue (pool w') = queue (pool w)) \/
  wrap (purge_size_of (pool w) * EARLY_OUT_MULTIPLIER) - purge_size_of (pool w)
    <= size_approx (pool w').
Proof.
  unfold PurgeQueue. intros Hrun.
  destruct (purge_active (pool w)).
  { injection Hrun as <- <-. left. split; reflexivity. }
  change (purge_size_of (set_purge_active true (pool w))) with (purge_size_of (pool w)) in Hrun.
  change (size_approx (set_evict_queue_insertions _ (set_purge_active true (pool w))))
    with (size_approx (pool w)) in Hrun.
  destruct (Z.ltb_spec (size_approx (pool w))
              (wrap (purge_size_of (pool w) * EARLY_OUT_MULTIPLIER))) as [Hout|Hin].
  { injection Hrun as <- <-. left. split; reflexivity. }
  destruct (_ =? 0); [discriminate|].
  right. eapply PurgeQueue_loop_floor; [apply wrap_range | | exact Hrun].
  exact Hin.
Qed.

Lemma PurgeQueue_floor_witness :
  exists n w',
    PurgeQueue 4 sweep_world = Returns n w' /\
    ((n = 0%nat /\ queue (pool w') = queue (pool sweep_world)) \/
     wrap (2 * EARLY_OUT_MULTIPLIER) - 2 <= size_approx (pool w')).
Proof.
  destruct (PurgeQueue 4 sweep_world) as [n w'|e w'|] eqn:E.
  - exists n, w'. split; [reflexivity|].
    exact (PurgeQueue_floor 4 sweep_world n w' E).
  - exfalso. vm_compute in E. discriminate.
  - exfalso. vm_compute in E. discriminate.
Defined.

(** ** The buffer handed over by an eviction *)

Lemma evict_run_taken (tag : MemoryTag) (extra_memory memory_limit : Z) (buffer : bool)
    (w : World) r w' :
  evict_run tag extra_memory memory_limit buffer w r w' ->
  forall id, taken r = Some id ->
    buffer = true /\ success r = true /\ reservation r = extra_memory /\
    exists h, alloc_size h = extra_memory /\ handles w' !! id = Some (Some (unloaded h)).
Proof.
  induction 1 as [w Hfit | w Hover Hq Hp | w node q r w' Hover Hq Hg Hrun IH
                  | w node q id0 h0 Hover Hq Hg Hb Ha
                  | w node q id0 h0 r w' Hover Hq Hg Hf Hrun IH]; intros id Ht;
    try discriminate; try (apply IH; exact Ht).
  injection Ht as <-.
  destruct (TryGetBlockHandle_inv _ _ _ _ Hg) as (_ & Hl & _).
  repeat split; try assumption.
  exists h0. split; [exact Ha|]. cbn.
  apply list_lookup_insert_eq. eapply lookup_lt_Some, Hl.
Qed.

(** When [EvictBlocks] hands a buffer over, the caller had passed a
    buffer pointer, the call reports success with the whole
    reservation, and the buffer comes from a block of exactly
    [extra_memory] bytes, which is now unloaded. *)
Theorem EvictBlocks_taken_buffer (fuel : nat) (tag : MemoryTag)
    (extra_memory memory_limit : Z) (buffer : bool) (w : World) r w' id :
  EvictBlocks fuel tag extra_memory memory_limit buffer w = Returns r w' ->
  taken r = Some id ->
  buffer = true /\ success r = true /\ reservation r = extra_memory /\
  exists h, alloc_size h = extra_memory /\ handles w' !! id = Some (Some (unloaded h)).
Proof.
  unfold EvictBlocks. intros Hrun Ht.
  apply EvictBlocks_loop_evict_run in Hrun.
  apply (evict_run_taken _ _ _ _ _ _ _ Hrun id Ht).
Qed.

Lemma EvictBlocks_taken_buffer_witness :
  exists r w' h,
    EvictBlocks 2 0%nat 40 0 true (add_hints 1 0 world100) = Returns r w' /\
    taken r = Some 0%nat /\
    alloc_size h = 40 /\ handles w' !! 0%nat = Some (Some (unloaded h)).
Proof.
  destruct (EvictBlocks 2 0%nat 40 0 true (add_hints 1 0 world100)) as [r w'|e w'|] eqn:E.
  - assert (Ht : taken r = Some 0%nat) by (vm_compute in E; injection E as <- _; reflexivity).
    destruct (EvictBlocks_taken_buffer 2 0%nat 40 0 true (add_hints 1 0 world100) r w' 0%nat
                E Ht) as (_ & _ & _ & h & Ha & Hl).
    exists r, w', h. split; [reflexivity|]. split; [exact Ht|]. split; [exact Ha | exact Hl].
  - exfalso. vm_compute in E. discriminate.
  - exfalso. vm_compute in E. discriminate.
Defined.

(** ** The purge flag between calls *)

Lemma evict_run_purge_active (tag : MemoryTag) (extra_memory memory_limit : Z)
    (buffer : bool) (w : World) r w' :
  evict_run tag extra_memory memory_limit buffer w r w' ->
  purge_active (pool w') = purge_active (pool w).
Proof.
  induction 1 as [w Hfit | w Hover Hq Hp | w node q r w' Hover Hq Hg Hrun IH
                  | w node q id0 h0 Hover Hq Hg Hb Ha
                  | w node q id0 h0 r w' Hover Hq Hg Hf Hrun IH];
    try reflexivity; try exact IH.
  cbn. symmetry. exact Hp.
Qed.

Lemma EvictBlocks_purge_active (fuel : nat) (tag : MemoryTag)
    (extra_memory memory_limit : Z) (buffer : bool) (w : World) r w' :
  EvictBlocks fuel tag extra_memory memory_limit buffer w = Returns r w' ->
  purge_active (pool w') = purge_active (pool w).
Proof.
  unfold EvictBlocks. intros Hrun.
  apply EvictBlocks_loop_evict_run, evict_run_purge_active in Hrun. exact Hrun.
Qed.

Lemma SetLimit_evict_again_purge_active (fuel : nat) (limit : Z) (postscript : string)
    (old_limit : Z) (w : World) :
  match SetLimit_evict_again fuel limit postscript old_limit w with
  | Returns _ w' | Throws _ w' => purge_active (pool w') = purge_active (pool w)
  | Diverges => True
  end.
Proof.
  unfold SetLimit_evict_again.
  destruct (EvictBlocks fuel EXTENSION 0 limit false w) as [r w3|e w3|] eqn:Ev.
  - apply EvictBlocks_purge_active in Ev. destruct (negb (success r)); exact Ev.
  - exfalso. eapply EvictBlocks_loop_never_throws. exact Ev.
  - exact I.
Qed.

Lemma SetLimit_purge_active (fuel : nat) (limit : Z) (postscript : string) (w : World) :
  match SetLimit fuel limit postscript w with
  | Returns _ w' | Throws _ w' => purge_active (pool w') = purge_active (pool w)
  | Diverges => True
  end.
Proof.
  unfold SetLimit.
  destruct (EvictBlocks fuel EXTENSION 0 limit false w) as [r w1|e w1|] eqn:Ev.
  - apply EvictBlocks_purge_active in Ev. destruct (negb (success r)); [exact Ev|].
    match goal with
    | |- match SetLimit_evict_again ?f ?l ?s ?o ?w2 with _ => _ end =>
        pose proof (SetLimit_evict_again_purge_active f l s o w2) as H2;
        destruct (SetLimit_evict_again f l s o w2); try exact I;
        (rewrite H2; exact Ev)
    end.
  - exfalso. eapply EvictBlocks_loop_never_throws. exact Ev.
  - exact I.
Qed.

(** Every operation that returns, or throws [OutOfMemoryException],
    has released the purge flag: in every reachable state
    [purge_active] is false, so the next [PurgeQueue] does purge and
    the next [TryDequeueWithoutConcurrentPurge] does not spin. *)
Theorem reachable_purge_inactive (w : World) :
  reachable w -> purge_active (pool w) = false.
Proof.
  induction 1 as [m | w hp' Hr IH Hev | w tag size Hr IH | w id h b w' Hr IH Hh Hrd Hwrap Hadd
                  | w fuel tag extra limit buffer r w' Hr IH Hrun | w fuel n w' Hr IH Hrun
                  | w fuel limit postscript w' Hr IH Hrun
                  | w fuel limit postscript e w' Hr IH Hrun].
  - reflexivity.
  - exact IH.
  - exact IH.
  - destruct (AddToEvictionQueue_run id h w Hh)
      as (b' & w'' & Hrun & _ & _ & _ & _ & _ & _ & _ & _ & Hp).
    rewrite Hadd in Hrun. injection Hrun as <- <-. rewrite Hp. exact IH.
  - rewrite (EvictBlocks_purge_active _ _ _ _ _ _ _ _ Hrun). exact IH.
  - apply PurgeQueue_purges_only in Hrun. destruct Hrun as (_ & Hp & _).
    rewrite Hp. exact IH.
  - pose proof (SetLimit_purge_active fuel limit postscript w) as Hs.
    rewrite Hrun in Hs. rewrite Hs. exact IH.
  - pose proof (SetLimit_purge_active fuel limit postscript w) as Hs.
    rewrite Hrun in Hs. rewrite Hs. exact IH.
Qed.

Lemma reachable_purge_inactive_witness :
  purge_active (pool (add_hints 1 0 world40)) = false.
Proof.
  apply reachable_purge_inactive.
  eapply reach_add with (id := 0%nat) (w := world40);
    [ | reflexivity | reflexivity | vm_compute; reflexivity | reflexivity ].
  change world40 with
    (on_pool (IncreaseUsedMemory 0%nat 40)
       (set_handles [Some block40] (mkWorld [] (BufferPool_new 100)))).
  apply reach_increase, reach_env; [apply reach_new|].
  split; [cbn; lia|].
  intros [|id] h' H; cbn in H; [|discriminate].
  injection H as <-. reflexivity.
Defined.

(** ** Accounting through an eviction *)

Lemma evict_run_accounted (t : MemoryTag) (extra_memory memory_limit : Z) (buffer : bool)
    (w : World) r w' :
  evict_run t extra_memory memory_limit buffer w r w' ->
  (t < length (memory_usage_per_tag (pool w)))%nat ->
  (forall id h, handles w !! id = Some (Some h) ->
     (tag h < length (memory_usage_per_tag (pool w)))%nat) ->
  accounted (pool w) ->
  accounted (pool w').
Proof.
  induction 1 as [w Hfit | w Hover Hq Hp | w node q r w' Hover Hq Hg Hrun IH
                  | w node q id0 h0 Hover Hq Hg Hb Ha
                  | w node q id0 h0 r w' Hover Hq Hg Hf Hrun IH]; intros Htag Htags Hacc.
  - exact Hacc.
  - cbn. apply IncreaseUsedMemory_accounted; [exact Htag | exact Hacc].
  - apply IH; [exact Htag | exact Htags | exact Hacc].
  - destruct (TryGetBlockHandle_inv _ _ _ _ Hg) as (_ & Hl & _).
    cbn. apply IncreaseUsedMemory_accounted; [apply (Htags id0 h0 Hl) | exact Hacc].
  - destruct (TryGetBlockHandle_inv _ _ _ _ Hg) as (_ & Hl & _).
    apply IH.
    + cbn. unfold MemoryTag in *. rewrite length_alter. exact Htag.
    + cbn. unfold MemoryTag in *. rewrite length_alter. intros id h Hh.
      destruct (decide (id = id0)) as [->|Hne].
      * rewrite list_lookup_insert_eq in Hh by (eapply lookup_lt_Some, Hl).
        injection Hh as <-. apply (Htags id0 h0 Hl).
      * rewrite list_lookup_insert_ne in Hh by congruence. apply (Htags id h Hh).
    + cbn. apply IncreaseUsedMemory_accounted; [apply (Htags id0 h0 Hl) | exact Hacc].
Qed.

(** I1 and I2 of the specification in the form the counters allow:
    when every tag in use names a slot and [current_memory] is the sum
    of the per-tag counters before [EvictBlocks], it is their sum
    after, whatever was unloaded and whether the reservation was kept
    or given back, sums being those of [idx_t]. *)
Theorem EvictBlocks_accounted (fuel : nat) (t : MemoryTag)
    (extra_memory memory_limit : Z) (buffer : bool) (w : World) r w' :
  EvictBlocks fuel t extra_memory memory_limit buffer w = Returns r w' ->
  (t < length (memory_usage_per_tag (pool w)))%nat ->
  (forall id h, handles w !! id = Some (Some h) ->
     (tag h < length (memory_usage_per_tag (pool w)))%nat) ->
  accounted (pool w) ->
  accounted (pool w').
Proof.
  unfold EvictBlocks. intros Hrun Htag Htags Hacc.
  apply EvictBlocks_loop_evict_run in Hrun.
  apply (evict_run_accounted _ _ _ _ _ _ _ Hrun).
  - cbn. unfold MemoryTag in *. rewrite length_alter. exact Htag.
  - cbn. unfold MemoryTag in *. rewrite length_alter. exact Htags.
  - cbn. apply IncreaseUsedMemory_accounted; [exact Htag | exact Hacc].
Qed.

Lemma EvictBlocks_accounted_witness :
  exists r w',
    EvictBlocks 2 0%nat 0 0 false (add_hints 1 0 world40) = Returns r w' /\
    accounted (pool w').
Proof.
  destruct (EvictBlocks 2 0%nat 0 0 false (add_hints 1 0 world40)) as [r w'|e w'|] eqn:E.
  - exists r, w'. split; [reflexivity|].
    apply (EvictBlocks_accounted 2 0%nat 0 0 false (add_hints 1 0 world40) r w' E).
    + vm_compute. lia.
    + intros [|id] h Hh; vm_compute in Hh; [|discriminate].
      injection Hh as <-. vm_compute. lia.
    + reflexivity.
  - exfalso. vm_compute in E. discriminate.
  - exfalso. vm_compute in E. discriminate.
Defined.
